(** * CCollision: the frame-loop arithmetic of [Triangle.cpp]

    A shallow embedding of the pure parts of [Triangle.cpp]: the
    translation-matrix builder, the two bounding-box collision tests, the
    jump and fall state updates of the render loop, and the exit paths of
    [main].

    The C++ type [float] is IEEE-754 binary32.  It is modelled by the
    Standard Library's [spec_float] with the binary32 parameters
    (24 bits of precision, infinities at exponent 128); [double] likewise
    with (53, 1024).  Arithmetic is round-to-nearest-even, comparisons are
    the IEEE ones (every comparison with a NaN is false). *)

From Stdlib Require Import ZArith Lia Bool List String.
From Stdlib Require Import Floats.SpecFloat.
From stdpp Require Import base list.

Local Open Scope Z_scope.

(** * The program *)

(** ** Binary32 and Binary64 arithmetic *)

Module B32.

Definition prec : Z := 24.
Definition emax : Z := 128.

Definition float : Type := spec_float.

Definition add : float -> float -> float := SFadd prec emax.
Definition sub : float -> float -> float := SFsub prec emax.
Definition mul : float -> float -> float := SFmul prec emax.
Definition div : float -> float -> float := SFdiv prec emax.

(** The C++ relational operators; all are false when an operand is NaN. *)
Definition lt (a b : float) : bool := SFltb a b.
Definition le (a b : float) : bool := SFleb a b.
Definition gt (a b : float) : bool :=
  match SFcompare a b with Some Gt => true | _ => false end.
Definition eq (a b : float) : bool := SFeqb a b.

Definition is_nan (a : float) : bool :=
  match a with S754_nan => true | _ => false end.

Definition valid (a : float) : bool := valid_binary prec emax a.

(** A decimal literal [n / d], rounded to nearest even from the exact
    quotient. *)
Definition literal (n d : positive) : float :=
  let '(mz, ez, lz) := SFdiv_core_binary prec emax (Zpos n) 0 (Zpos d) 0 in
  binary_round_aux prec emax false mz ez lz.

Definition zero : float := S754_zero false.                         (* 0.0f  *)
Definition one : float := S754_finite false 8388608 (-23).          (* 1.0f  *)
Definition half : float := S754_finite false 8388608 (-24).         (* 0.5f  *)
Definition quarter : float := S754_finite false 8388608 (-25).      (* 0.25f *)
Definition three_quarters : float := S754_finite false 12582912 (-24). (* 0.75f *)
Definition tenth : float := S754_finite false 13421773 (-27).       (* 0.1f  *)
Definition hundredth : float := S754_finite false 10737418 (-30).   (* 0.01f *)
Definition two_fifths : float := S754_finite false 13421773 (-25).  (* 0.4f  *)
Definition three_fifths : float := S754_finite false 10066330 (-24). (* 0.6f *)
Definition four_fifths : float := S754_finite false 13421773 (-24). (* 0.8f  *)

End B32.

Module B64.

Definition prec : Z := 53.
Definition emax : Z := 1024.

Definition double : Type := spec_float.

Definition mul : double -> double -> double := SFmul prec emax.

Definition literal (n d : positive) : double :=
  let '(mz, ez, lz) := SFdiv_core_binary prec emax (Zpos n) 0 (Zpos d) 0 in
  binary_round_aux prec emax false mz ez lz.

(** Conversion of a value to the format [(p, e)]: the mantissa is rounded
    to [p] bits.  Widening a float to a double is exact. *)
Definition round_to (p e : Z) (a : spec_float) : spec_float :=
  match a with
  | S754_finite s m x => binary_round p e s m x
  | _ => a
  end.

Definition of_float (a : B32.float) : double := round_to prec emax a.
Definition to_float (a : double) : B32.float := round_to B32.prec B32.emax a.

(** [M_PI], 3.14159265358979323846 as a double (0x400921FB54442D18). *)
Definition M_PI : double := S754_finite false 7074237752028440 (-51).

End B64.

Abbreviation float := B32.float.

(** ** Matrices (Triangle.cpp, lines 74-85)

    A [float*] argument is the array it points to, a list of floats; a
    store [matrix[i] = v] is [<[i:=v]> matrix].  The callers pass a
    [float[16]]; a store past the end of a shorter array is undefined in
    C++ and leaves the list unchanged here. *)

Fixpoint identityMatrix_loop (count i : nat) (matrix : list float)
  : list float :=
  match count with
  | O => matrix
  | S count' =>
      identityMatrix_loop count' (S i)
        (<[i := if Nat.eqb (i mod 5) 0 then B32.one else B32.zero]> matrix)
  end.

Definition identityMatrix (matrix : list float) : list float :=
  identityMatrix_loop 16 0 matrix.

Definition createTranslationMatrix (x y : float) (matrix : list float)
  : list float :=
  <[7%nat := y]> (<[3%nat := x]> (identityMatrix matrix)).

(** ** Collision tests (Triangle.cpp, lines 88-126) *)

Definition checkCollision (x1 y1 width1 height1 x2 y2 width2 height2 : float)
  : bool :=
  negb (B32.lt (B32.add x1 width1) x2 || B32.gt x1 (B32.add x2 width2)
        || B32.lt (B32.add y1 height1) y2 || B32.gt y1 (B32.add y2 height2)).

Definition checkCollisionDirection
  (x1 y1 width1 height1 x2 y2 width2 height2 : float) : Z :=
  if B32.gt (B32.add x1 width1) x2 && B32.lt x1 (B32.add x2 width2)
     && B32.gt (B32.add y1 height1) y2 && B32.lt y1 (B32.add y2 height2)
  then
    if B32.gt (B32.add x1 width1) x2 && B32.lt x1 x2
       && (B32.gt (B32.add y1 height1) y2 && B32.lt y1 (B32.add y2 height2))
    then 1
    else if B32.lt x1 (B32.add x2 width2)
            && B32.gt (B32.add x1 width1) (B32.add x2 width2)
            && (B32.gt (B32.add y1 height1) y2
                && B32.lt y1 (B32.add y2 height2))
    then 2
    else if B32.gt (B32.add y1 height1) y2 && B32.lt y1 y2
            && (B32.gt (B32.add x1 width1) x2
                && B32.lt x1 (B32.add x2 width2))
    then 3
    else if B32.lt y1 (B32.add y2 height2)
            && B32.gt (B32.add y1 height1) (B32.add y2 height2)
            && (B32.gt (B32.add x1 width1) x2
                && B32.lt x1 (B32.add x2 width2))
    then 4
    else 0
  else 0.

(** ** The motion state of the render loop (Triangle.cpp, lines 192-208) *)

Record Motion : Type := mkMotion {
  translationX : float;
  isJumping : bool;
  isFalling : bool;
  jumpHeight : float;
  jumpStartTime : float;
  deltaTime : float;
  lastFrame : float
}.

Definition translationY : float := SFopp B32.three_quarters.   (* -0.75f *)
Definition squareTranslationX : float := B32.zero.
Definition squareTranslationY : float := SFopp B32.half.       (* -0.5f  *)
Definition jumpSpeed : float := B32.tenth.
Definition jumpDuration : float := B32.one.

Definition initial : Motion :=
  {| translationX := SFopp B32.one;
     isJumping := false;
     isFalling := false;
     jumpHeight := B32.zero;
     jumpStartTime := B32.zero;
     deltaTime := B32.zero;
     lastFrame := B32.zero |}.

(** What one iteration reads from the platform: the clock, converted to
    [float] by the initialisation of [currentFrame], the four key states,
    and whether [glfwPollEvents] saw a request to close the window. *)
Record Frame : Type := mkFrame {
  glfwGetTime : float;
  key_escape : bool;
  key_left : bool;
  key_right : bool;
  key_space : bool;
  close_event : bool
}.

(** What one iteration hands to the shader program. *)
Record Drawn : Type := mkDrawn {
  isColliding : bool;
  triangleColor : list float;
  triangleTransform : list float;
  squareTransform : list float
}.

(** Line 238: [jumpProgress * M_PI] is a [double] product, narrowed to
    [float] by the call of [sinf]. *)
Definition sin_arg (progress : float) : float :=
  B64.to_float (B64.mul (B64.of_float progress) B64.M_PI).

Section FrameLoop.

(** [sinf] is the C library's; the program only fixes where it is
    called. *)
Variable sinf : float -> float.

(** Lines 213-215. *)
Definition clock_step (currentFrame : float) (s : Motion) : Motion :=
  {| translationX := translationX s;
     isJumping := isJumping s;
     isFalling := isFalling s;
     jumpHeight := jumpHeight s;
     jumpStartTime := jumpStartTime s;
     deltaTime := B32.sub currentFrame (lastFrame s);
     lastFrame := currentFrame |}.

(** Lines 222-225. *)
Definition move_step (left right : bool) (s : Motion) : Motion :=
  let x1 := if left then B32.sub (translationX s) B32.hundredth
            else translationX s in
  let x2 := if right then B32.add x1 B32.hundredth else x1 in
  {| translationX := x2;
     isJumping := isJumping s;
     isFalling := isFalling s;
     jumpHeight := jumpHeight s;
     jumpStartTime := jumpStartTime s;
     deltaTime := deltaTime s;
     lastFrame := lastFrame s |}.

(** Lines 228-232. *)
Definition input_step (currentFrame : float) (space : bool) (s : Motion)
  : Motion :=
  if space && negb (isJumping s) then
    {| translationX := translationX s;
       isJumping := true;
       isFalling := false;
       jumpHeight := jumpHeight s;
       jumpStartTime := currentFrame;
       deltaTime := deltaTime s;
       lastFrame := lastFrame s |}
  else s.

(** Line 236. *)
Definition jumpProgress (currentFrame start : float) : float :=
  B32.div (B32.sub currentFrame start) jumpDuration.

(** Line 238. *)
Definition jump_offset (progress : float) : float :=
  B32.mul (sinf (sin_arg progress)) B32.half.

(** Lines 235-245. *)
Definition jump_step (currentFrame : float) (s : Motion) : Motion :=
  if isJumping s then
    let progress := jumpProgress currentFrame (jumpStartTime s) in
    if B32.lt progress B32.one then
      {| translationX := translationX s;
         isJumping := isJumping s;
         isFalling := isFalling s;
         jumpHeight := jump_offset progress;
         jumpStartTime := jumpStartTime s;
         deltaTime := deltaTime s;
         lastFrame := lastFrame s |}
    else
      {| translationX := translationX s;
         isJumping := false;
         isFalling := true;
         jumpHeight := B32.zero;
         jumpStartTime := jumpStartTime s;
         deltaTime := deltaTime s;
         lastFrame := lastFrame s |}
  else s.

(** Lines 248-254. *)
Definition fall_step (s : Motion) : Motion :=
  if isFalling s then
    let h := B32.sub (jumpHeight s) jumpSpeed in
    if B32.le h B32.zero then
      {| translationX := translationX s;
         isJumping := isJumping s;
         isFalling := false;
         jumpHeight := B32.zero;
         jumpStartTime := jumpStartTime s;
         deltaTime := deltaTime s;
         lastFrame := lastFrame s |}
    else
      {| translationX := translationX s;
         isJumping := isJumping s;
         isFalling := isFalling s;
         jumpHeight := h;
         jumpStartTime := jumpStartTime s;
         deltaTime := deltaTime s;
         lastFrame := lastFrame s |}
  else s.

(** The state update of one iteration, lines 213-254. *)
Definition frame_step (f : Frame) (s : Motion) : Motion :=
  let currentFrame := glfwGetTime f in
  fall_step
    (jump_step currentFrame
       (input_step currentFrame (key_space f)
          (move_step (key_left f) (key_right f)
             (clock_step currentFrame s)))).

(** Lines 257-289; [transform] is the uninitialised local array. *)
Definition draw (transform : list float) (s : Motion) : Drawn :=
  let colliding :=
    checkCollision
      (translationX s) (B32.add translationY (jumpHeight s)) B32.half B32.half
      (B32.sub squareTranslationX B32.quarter)
      (B32.sub squareTranslationY B32.quarter) B32.half B32.half in
  let t1 :=
    createTranslationMatrix (translationX s)
      (B32.add translationY (jumpHeight s)) transform in
  {| isColliding := colliding;
     triangleColor :=
       if colliding then [B32.one; B32.zero; B32.zero; B32.one]
       else [B32.two_fifths; B32.four_fifths; B32.three_fifths; B32.one];
     triangleTransform := t1;
     squareTransform :=
       createTranslationMatrix squareTranslationX squareTranslationY t1 |}.

(** Runs of the loop body over recorded frames. *)
Definition run (fs : list Frame) (s : Motion) : Motion :=
  fold_left (fun s f => frame_step f s) fs s.

(** The state in which the jump logic of an iteration runs. *)
Definition before_jump (f : Frame) (s : Motion) : Motion :=
  input_step (glfwGetTime f) (key_space f)
    (move_step (key_left f) (key_right f) (clock_step (glfwGetTime f) s)).

(** The iteration starts a jump (lines 229-231 run). *)
Definition starts_jump (f : Frame) (s : Motion) : bool :=
  key_space f && negb (isJumping s).

(** The iteration ends a jump (lines 241-243 run). *)
Definition ends_jump (f : Frame) (s : Motion) : bool :=
  let s1 := before_jump f s in
  isJumping s1
  && negb (B32.lt (jumpProgress (glfwGetTime f) (jumpStartTime s1)) B32.one).

(** How many iterations of a run satisfy [event]. *)
Fixpoint count_frames (event : Frame -> Motion -> bool) (fs : list Frame)
    (s : Motion) : nat :=
  match fs with
  | [] => 0%nat
  | f :: fs' =>
      ((if event f s then 1 else 0)
       + count_frames event fs' (frame_step f s))%nat
  end.

(** ** [main] (Triangle.cpp, lines 128-297) *)

(** The answers of the platform during start-up; a shader or link
    diagnostic is [Some infoLog]. *)
Record Platform : Type := mkPlatform {
  glfwInit : bool;
  glfwCreateWindow : bool;
  glewInit_ok : bool;
  vertex_log : option string;
  fragment_log : option string;
  link_log : option string;
  transform0 : list float
}.

Record Outcome : Type := mkOutcome {
  stderr : list string;
  glfwTerminate : bool;
  frames_drawn : list Drawn;
  exit_code : Z
}.

(** Lines 34-47. *)
Definition compileShader (log : option string) (err : list string)
  : list string :=
  match log with
  | Some infoLog => err ++ ["ERROR::SHADER::COMPILATION_FAILED"%string; infoLog]
  | None => err
  end.

(** Lines 50-71. *)
Definition createShaderProgram (p : Platform) (err : list string)
  : list string :=
  let err1 := compileShader (vertex_log p) err in
  let err2 := compileShader (fragment_log p) err1 in
  match link_log p with
  | Some infoLog =>
      err2 ++ ["ERROR::SHADER::PROGRAM::LINKING_FAILED"%string; infoLog]
  | None => err2
  end.

(** Lines 211-293.  The window's close flag is set by the escape key and
    by [glfwPollEvents]; [None] when the recorded frames end with the
    window still open. *)
Fixpoint render_loop (fs : list Frame) (shouldClose : bool)
    (transform : list float) (s : Motion) (drawn : list Drawn)
  : option (list Drawn) :=
  if shouldClose then Some drawn
  else
    match fs with
    | [] => None
    | f :: fs' =>
        let s' := frame_step f s in
        let d := draw transform s' in
        render_loop fs' (key_escape f || close_event f)
          transform s' (drawn ++ [d])
    end.

Definition main (p : Platform) (fs : list Frame) : option Outcome :=
  if negb (glfwInit p) then
    Some {| stderr := ["Failed to initialize GLFW"%string];
            glfwTerminate := false;
            frames_drawn := [];
            exit_code := -1 |}
  else if negb (glfwCreateWindow p) then
    Some {| stderr := ["Failed to create GLFW window"%string];
            glfwTerminate := true;
            frames_drawn := [];
            exit_code := -1 |}
  else if negb (glewInit_ok p) then
    Some {| stderr := ["Failed to initialize GLEW"%string];
            glfwTerminate := true;
            frames_drawn := [];
            exit_code := -1 |}
  else
    let err := createShaderProgram p [] in
    match render_loop fs false (transform0 p) initial [] with
    | Some drawn =>
        Some {| stderr := err;
                glfwTerminate := true;
                frames_drawn := drawn;
                exit_code := 0 |}
    | None => None
    end.

End FrameLoop.

(** * The properties

    The definitions below are the vocabulary of the statements; none of
    them is part of the program. *)

(** ** Binary32 values as integers

    A finite binary32 value is an integer multiple of [2 ^ -149]; [scaled]
    is that integer.  [digits] is the bit length of a mantissa. *)

Definition digits (m : positive) : Z := Zpos (digits2_pos m).

Definition is_finite (a : spec_float) : bool :=
  match a with S754_zero _ | S754_finite _ _ _ => true | _ => false end.

Definition scaled (a : spec_float) : Z :=
  match a with
  | S754_finite s m e => cond_Zopp s (Zpos m * 2 ^ (e + 149))
  | _ => 0
  end.

(** The sign of a value that is not a NaN. *)
Definition has_sign (s : bool) (a : spec_float) : Prop :=
  match a with
  | S754_zero t | S754_infinity t | S754_finite t _ _ => t = s
  | S754_nan => False
  end.

(** ** Boxes *)

(** The words of the specification: edge [a] lies strictly before edge [b]
    on its axis (to the left of it, or below it). *)
Definition before (a b : float) : Prop := B32.lt a b = true.

(** Two boxes are apart when one of the four gaps of the specification's
    test exists, and overlap when none does. *)
Definition apart (x1 y1 width1 height1 x2 y2 width2 height2 : float) : Prop :=
  before (B32.add x1 width1) x2 \/ before (B32.add x2 width2) x1 \/
  before (B32.add y1 height1) y2 \/ before (B32.add y2 height2) y1.

Definition overlap (x1 y1 width1 height1 x2 y2 width2 height2 : float)
  : Prop :=
  ~ apart x1 y1 width1 height1 x2 y2 width2 height2.

(** The closed intervals [[lo1, lo1 + len1]] and [[lo2, lo2 + len2]] share
    a point. *)
Definition meet (lo1 len1 lo2 len2 : float) : Prop :=
  B32.le lo2 (B32.add lo1 len1) = true /\
  B32.le lo1 (B32.add lo2 len2) = true.

(** None of the listed values is a NaN. *)
Definition numbers (l : list float) : Prop :=
  Forall (fun a => B32.is_nan a = false) l.

(** ** Runs of the loop *)

(** A stand-in for [sinf] on which the loop can be run: the parabola
    through the zeros and the maximum of the sine on [[0, pi]], clamped at
    zero. *)
Definition sinf_parabola (x : float) : float :=
  let pi := B64.to_float B64.M_PI in
  let v := B32.div (B32.mul (B32.literal 4 1) (B32.mul x (B32.sub pi x)))
                   (B32.mul pi pi) in
  if B32.le B32.zero v then v else B32.zero.

(** The iteration sets the window's close flag. *)
Definition closes (f : Frame) : Prop := key_escape f || close_event f = true.

(** A truth value as a count. *)
Definition flag (b : bool) : nat := if b then 1%nat else 0%nat.

(** [n] fall steps in a row. *)
Definition fall_n (n : nat) (s : Motion) : Motion := Nat.iter n fall_step s.




(** A reading of the clock: a finite binary32 number. *)
Definition clock_reading (t : float) : Prop :=
  B32.valid t = true /\ is_finite t = true.

(** What the invariant needs of the C library's sine: it is not negative
    where the jump step calls it, that is at [progress * M_PI] for a
    progress in [[0, 1)] computed from two readings of the clock. *)
Definition sinf_nonneg_on_jump (sinf : float -> float) : Prop :=
  forall start now,
    clock_reading start -> clock_reading now ->
    B32.le B32.zero (jumpProgress now start) = true ->
    B32.lt (jumpProgress now start) B32.one = true ->
    B32.le B32.zero (sinf (sin_arg (jumpProgress now start))) = true.

(** The states of the loop at the end of an iteration, under a clock that
    does not run backwards. *)
Inductive reachable (sinf : float -> float) : Motion -> Prop :=
| reachable_initial : reachable sinf initial
| reachable_frame (f : Frame) (s : Motion) :
    reachable sinf s ->
    clock_reading (glfwGetTime f) ->
    B32.le (lastFrame s) (glfwGetTime f) = true ->
    reachable sinf (frame_step sinf f s).

(** The invariant that the loop maintains, stronger than the one
    claimed: a jump in progress started at a reading of the clock that is
    not later than the last one. *)
Definition loop_invariant (s : Motion) : Prop :=
  clock_reading (lastFrame s) /\
  isFalling s = false /\
  B32.le B32.zero (jumpHeight s) = true /\
  (isJumping s = true ->
   clock_reading (jumpStartTime s) /\
   B32.le (jumpStartTime s) (lastFrame s) = true).

(** ** Vocabulary of the further properties *)

(** The outer condition of [checkCollisionDirection] (line 95): the boxes
    overlap with strict inequalities on both axes. *)
Definition strictly_overlap
  (x1 y1 width1 height1 x2 y2 width2 height2 : float) : bool :=
  B32.gt (B32.add x1 width1) x2 && B32.lt x1 (B32.add x2 width2)
  && B32.gt (B32.add y1 height1) y2 && B32.lt y1 (B32.add y2 height2).

(** The 4x4 identity, row by row. *)
Definition identity16 : list float :=
  [B32.one; B32.zero; B32.zero; B32.zero;
   B32.zero; B32.one; B32.zero; B32.zero;
   B32.zero; B32.zero; B32.one; B32.zero;
   B32.zero; B32.zero; B32.zero; B32.one].

(** The part of the motion state that the jump and fall logic reads and
    writes. *)
Definition jump_state (s : Motion) : bool * bool * float * float :=
  (isJumping s, isFalling s, jumpHeight s, jumpStartTime s).

(** The frames up to and including the first one that sets the close
    flag. *)
Fixpoint through_close (fs : list Frame) : list Frame :=
  match fs with
  | [] => []
  | f :: fs' =>
      f :: (if key_escape f || close_event f then [] else through_close fs')
  end.

(** What the bodies of the loop draw when they run on every frame of
    [fs]. *)
Fixpoint replay (sinf : float -> float) (transform : list float)
    (fs : list Frame) (s : Motion) : list Drawn :=
  match fs with
  | [] => []
  | f :: fs' =>
      draw transform (frame_step sinf f s)
      :: replay sinf transform fs' (frame_step sinf f s)
  end.

(** The two lines that a failed compilation or link leaves on standard
    error. *)
Definition diagnostic (header : string) (log : option string) : list string :=
  match log with
  | Some infoLog => [header; infoLog]
  | None => []
  end.

(** The start-up of the platform succeeds. *)
Definition starts (p : Platform) : bool :=
  glfwInit p && glfwCreateWindow p && glewInit_ok p.

(** On the ground the offset is 0; in a jump it is the value of the curve
    at the progress of the last reading of the clock, which is below 1. *)
Definition offset_on_curve (sinf : float -> float) (s : Motion) : Prop :=
  isFalling s = false /\
  (isJumping s = false -> jumpHeight s = B32.zero) /\
  (isJumping s = true ->
   B32.lt (jumpProgress (lastFrame s) (jumpStartTime s)) B32.one = true /\
   jumpHeight s =
     B32.mul (sinf (sin_arg (jumpProgress (lastFrame s) (jumpStartTime s))))
             B32.half).

(** * Proofs *)

(** ** Sanity checks of the constants *)

Example literals_f32 :
  B32.literal 1 10 = B32.tenth /\ B32.literal 1 100 = B32.hundredth /\
  B32.literal 1 2 = B32.half /\ B32.literal 1 4 = B32.quarter /\
  B32.literal 3 4 = B32.three_quarters /\ B32.literal 1 1 = B32.one /\
  B32.literal 4 10 = B32.two_fifths /\ B32.literal 8 10 = B32.four_fifths /\
  B32.literal 6 10 = B32.three_fifths.
Proof. vm_compute. repeat split; reflexivity. Qed.

(** The largest progress below 1 gives [sinf] an argument below the
    [float] nearest to pi, and below pi itself. *)
Example sin_arg_below_pi :
  let last := S754_finite false 16777215 (-24) in
  B32.lt last B32.one = true /\
  sin_arg last = S754_finite false 13176794 (-22) /\
  B32.lt (sin_arg last) (B64.to_float B64.M_PI) = true /\
  sin_arg B32.half = S754_finite false 13176795 (-23).
Proof. vm_compute. repeat split; reflexivity. Qed.

Example literal_M_PI :
  B64.literal 314159265358979323846 100000000000000000000 = B64.M_PI.
Proof. vm_compute. reflexivity. Qed.

(** ** Comparison lemmas *)

Lemma SFcompare_antisym (a b : spec_float) :
  SFcompare b a = option_map CompOpp (SFcompare a b).
Proof.
  destruct a as [sa|sa| |sa ma ea], b as [sb|sb| |sb mb eb]; simpl;
    try destruct sa; try destruct sb; try reflexivity.
  - rewrite (Z.compare_antisym eb ea).
    destruct (eb ?= ea) eqn:E; simpl; try reflexivity.
    rewrite (Pos.compare_cont_antisym ma mb Eq). reflexivity.
  - rewrite (Z.compare_antisym eb ea).
    destruct (eb ?= ea) eqn:E; simpl; try reflexivity.
    f_equal. symmetry. exact (Pos.compare_cont_antisym ma mb Eq).
Qed.

Lemma gt_lt (a b : float) : B32.gt a b = B32.lt b a.
Proof.
  unfold B32.gt, B32.lt, SFltb. rewrite (SFcompare_antisym a b).
  destruct (SFcompare a b) as [[]|]; reflexivity.
Qed.

Lemma lt_irrefl_pair (a b : float) : B32.lt a b = true -> B32.lt b a = false.
Proof.
  unfold B32.lt, SFltb. rewrite (SFcompare_antisym a b).
  destruct (SFcompare a b) as [[]|]; simpl; congruence.
Qed.

Lemma le_not_lt (a b : float) : B32.le a b = true -> B32.lt b a = false.
Proof.
  unfold B32.le, B32.lt, SFleb, SFltb. rewrite (SFcompare_antisym a b).
  destruct (SFcompare a b) as [[]|]; simpl; congruence.
Qed.

(** ** Facts on [SpecFloat] at the binary32 parameters

    The comparison of valid values is the comparison of their integers;
    rounding a positive integer mantissa gives a valid value that exceeds
    the exact one by less than one unit in the last place; subtraction
    rounds the exact difference. *)

Lemma digits_pos m : 0 < digits m.
Proof. unfold digits. lia. Qed.

Lemma digits_bounds (m : positive) :
  2 ^ (digits m - 1) <= Zpos m < 2 ^ digits m.
Proof.
  unfold digits. induction m as [m IH|m IH|]; simpl digits2_pos;
    [| |simpl; lia].
  all: rewrite Pos2Z.inj_succ.
  all: set (d := Zpos (digits2_pos m)) in *.
  all: replace (Z.succ d - 1) with (Z.succ (d - 1)) by lia.
  all: rewrite !Z.pow_succ_r by lia.
  all: lia.
Qed.

Lemma digits_unique (m : positive) (d : Z) :
  2 ^ (d - 1) <= Zpos m < 2 ^ d -> digits m = d.
Proof.
  intros [L U]. pose proof (digits_bounds m) as [L' U'].
  pose proof (digits_pos m).
  assert (0 < d).
  { destruct (Z_lt_le_dec 0 d); [assumption|].
    assert (2 ^ d <= 2 ^ 0) by (apply Z.pow_le_mono_r; lia).
    simpl in *. lia. }
  destruct (Z_lt_le_dec (digits m) d).
  - assert (2 ^ digits m <= 2 ^ (d - 1)) by (apply Z.pow_le_mono_r; lia). lia.
  - destruct (Z_lt_le_dec d (digits m)); [|lia].
    assert (2 ^ d <= 2 ^ (digits m - 1)) by (apply Z.pow_le_mono_r; lia). lia.
Qed.

Lemma valid_finite_bounds s m e :
  valid_binary 24 128 (S754_finite s m e) = true ->
  -149 <= e <= 104 /\ Zpos m < 2 ^ 24 /\ (e = -149 \/ 2 ^ 23 <= Zpos m).
Proof.
  unfold valid_binary, bounded, canonical_mantissa, fexp, emin.
  rewrite andb_true_iff, Z.eqb_eq, Z.leb_le.
  fold (digits m). intros [C E].
  pose proof (digits_bounds m) as [L U]. pose proof (digits_pos m).
  destruct (Z.max_spec (digits m + e - 24) (3 - 128 - 24)) as [[A B]|[A B]];
    rewrite B in C.
  - assert (digits m <= 24) by lia.
    assert (2 ^ digits m <= 2 ^ 24) by (apply Z.pow_le_mono_r; lia).
    repeat split; lia.
  - assert (D : digits m = 24) by lia. rewrite D in *.
    repeat split; lia.
Qed.

Lemma pow2_pos k : 0 <= k -> 0 < 2 ^ k.
Proof. intros. apply Z.pow_pos_nonneg; lia. Qed.

Lemma pow2_split a b : 0 <= a -> 0 <= b -> 2 ^ (a + b) = 2 ^ a * 2 ^ b.
Proof. intros. apply Z.pow_add_r; lia. Qed.

(** [pow2_gt0 k] adds [0 < 2 ^ k] to the context, for a [k] that [lia]
    shows non-negative. *)
Ltac pow2_gt0 k := assert (0 < 2 ^ k) by (apply pow2_pos; lia).

Lemma compare_canonical ma ea mb eb :
  -149 <= ea -> -149 <= eb ->
  Zpos ma < 2 ^ 24 -> Zpos mb < 2 ^ 24 ->
  (ea = -149 \/ 2 ^ 23 <= Zpos ma) -> (eb = -149 \/ 2 ^ 23 <= Zpos mb) ->
  match ea ?= eb with
  | Lt => Lt
  | Gt => Gt
  | Eq => Pos.compare_cont Eq ma mb
  end = (Zpos ma * 2 ^ (ea + 149) ?= Zpos mb * 2 ^ (eb + 149)).
Proof.
  intros Ha Hb Ua Ub Na Nb.
  destruct (Z.compare_spec ea eb) as [E|E|E].
  - subst eb. symmetry.
    pow2_gt0 (ea + 149).
    rewrite <- Zmult_compare_compat_r by lia. reflexivity.
  - symmetry. apply Z.compare_lt_iff.
    replace (eb + 149) with ((ea + 149) + (eb - ea)) by lia.
    rewrite (pow2_split (ea + 149) (eb - ea)) by lia.
    pow2_gt0 (ea + 149).
    assert (2 ^ 1 <= 2 ^ (eb - ea)) by (apply Z.pow_le_mono_r; lia).
    change (2 ^ 1) with 2 in *. change (2 ^ 23) with 8388608 in *.
    change (2 ^ 24) with 16777216 in *.
    assert (2 * 2 ^ (ea + 149) <= 2 ^ (ea + 149) * 2 ^ (eb - ea)) by nia.
    assert (8388608 <= Zpos mb) by lia.
    assert (Zpos ma * 2 ^ (ea + 149) < 16777216 * 2 ^ (ea + 149)) by nia.
    assert (8388608 * (2 ^ (ea + 149) * 2 ^ (eb - ea))
            <= Zpos mb * (2 ^ (ea + 149) * 2 ^ (eb - ea))) by nia.
    lia.
  - symmetry. apply Z.compare_gt_iff.
    replace (ea + 149) with ((eb + 149) + (ea - eb)) by lia.
    rewrite (pow2_split (eb + 149) (ea - eb)) by lia.
    pow2_gt0 (eb + 149).
    assert (2 ^ 1 <= 2 ^ (ea - eb)) by (apply Z.pow_le_mono_r; lia).
    change (2 ^ 1) with 2 in *. change (2 ^ 23) with 8388608 in *.
    change (2 ^ 24) with 16777216 in *.
    assert (2 * 2 ^ (eb + 149) <= 2 ^ (eb + 149) * 2 ^ (ea - eb)) by nia.
    assert (8388608 <= Zpos ma) by lia.
    assert (Zpos mb * 2 ^ (eb + 149) < 16777216 * 2 ^ (eb + 149)) by nia.
    assert (8388608 * (2 ^ (eb + 149) * 2 ^ (ea - eb))
            <= Zpos ma * (2 ^ (eb + 149) * 2 ^ (ea - eb))) by nia.
    lia.
Qed.

Lemma compare_scaled (a b : spec_float) :
  valid_binary 24 128 a = true -> valid_binary 24 128 b = true ->
  is_finite a = true -> is_finite b = true ->
  SFcompare a b = Some (scaled a ?= scaled b).
Proof.
  intros Va Vb Fa Fb.
  destruct a as [sa|sa| |sa ma ea]; try discriminate Fa;
    destruct b as [sb|sb| |sb mb eb]; try discriminate Fb.
  - reflexivity.
  - apply valid_finite_bounds in Vb.
    pow2_gt0 (eb + 149).
    cbv [SFcompare scaled cond_Zopp].
    destruct sb; f_equal; symmetry;
      [apply Z.compare_gt_iff | apply Z.compare_lt_iff]; nia.
  - apply valid_finite_bounds in Va.
    pow2_gt0 (ea + 149).
    cbv [SFcompare scaled cond_Zopp].
    destruct sa; f_equal; symmetry;
      [apply Z.compare_lt_iff | apply Z.compare_gt_iff]; nia.
  - apply valid_finite_bounds in Va, Vb.
    destruct Va as (Ea & Ua & Na), Vb as (Eb & Ub & Nb).
    pow2_gt0 (ea + 149). pow2_gt0 (eb + 149).
    cbv [SFcompare scaled cond_Zopp]. destruct sa, sb; f_equal.
    + pose proof (compare_canonical ma ea mb eb) as C.
      rewrite Z.compare_opp.
      rewrite (Z.compare_antisym (Zpos ma * 2 ^ (ea + 149))), <- C by lia.
      destruct (ea ?= eb); reflexivity.
    + symmetry. apply Z.compare_lt_iff. nia.
    + symmetry. apply Z.compare_gt_iff. nia.
    + apply compare_canonical; lia.
Qed.

(** Shifts *)

Lemma iter_xO (m k : positive) :
  Zpos (Pos.iter xO m k) = Zpos m * 2 ^ Zpos k.
Proof.
  induction k as [|k IH] using Pos.peano_ind.
  - simpl. lia.
  - rewrite Pos.iter_succ, Pos2Z.inj_xO, IH, Pos2Z.inj_succ.
    rewrite Z.pow_succ_r by lia. lia.
Qed.

Lemma shl_align_spec mx ex ex' :
  snd (shl_align mx ex ex') = Z.min ex ex' /\
  Zpos (fst (shl_align mx ex ex')) =
    Zpos mx * 2 ^ (ex - Z.min ex ex').
Proof.
  unfold shl_align. destruct (ex' - ex) as [|d|d] eqn:E; simpl.
  - replace (Z.min ex ex') with ex by lia. rewrite Z.sub_diag. simpl. lia.
  - replace (Z.min ex ex') with ex by lia. rewrite Z.sub_diag. simpl. lia.
  - replace (Z.min ex ex') with ex' by lia.
    replace (ex - ex') with (Zpos d) by lia. split; [reflexivity|].
    apply iter_xO.
Qed.

Lemma shr_1_m mrs : 0 <= shr_m mrs -> shr_m (shr_1 mrs) = shr_m mrs / 2.
Proof.
  destruct mrs as [m r s]. simpl shr_m. intros H.
  rewrite <- Z.div2_div.
  destruct m as [|[p|p|]|p]; try reflexivity. lia.
Qed.

Lemma iter_shr_m (n : positive) :
  forall mrs, 0 <= shr_m mrs ->
    shr_m (SpecFloat.iter_pos shr_1 n mrs) = shr_m mrs / 2 ^ Zpos n.
Proof.
  induction n as [n IH|n IH|]; intros mrs H; simpl SpecFloat.iter_pos.
  - assert (H1 : 0 <= shr_m (shr_1 mrs)).
    { rewrite shr_1_m by exact H. apply Z.div_pos; lia. }
    assert (H2 : 0 <= shr_m (SpecFloat.iter_pos shr_1 n (shr_1 mrs))).
    { rewrite IH by exact H1. apply Z.div_pos; [exact H1|].
      apply Z.pow_pos_nonneg; lia. }
    rewrite IH, IH, shr_1_m by assumption.
    rewrite !Z.div_div
      by (first [apply Z.pow_nonzero; lia | apply Z.pow_pos_nonneg; lia | lia]).
    assert (E : 2 ^ Zpos n~1 = 2 * (2 ^ Zpos n * 2 ^ Zpos n)).
    { replace (Zpos n~1) with (Z.succ (Zpos n + Zpos n)) by lia.
      rewrite Z.pow_succ_r, Z.pow_add_r by lia. reflexivity. }
    rewrite E. reflexivity.
  - assert (H2 : 0 <= shr_m (SpecFloat.iter_pos shr_1 n mrs)).
    { rewrite IH by exact H. apply Z.div_pos; [exact H|].
      apply Z.pow_pos_nonneg; lia. }
    rewrite IH, IH by assumption.
    rewrite Z.div_div
      by (first [apply Z.pow_nonzero; lia | apply Z.pow_pos_nonneg; lia]).
    assert (E : 2 ^ Zpos n~0 = 2 ^ Zpos n * 2 ^ Zpos n).
    { replace (Zpos n~0) with (Zpos n + Zpos n) by lia.
      apply Z.pow_add_r; lia. }
    rewrite E. reflexivity.
  - rewrite shr_1_m by exact H. reflexivity.
Qed.

Lemma shr_record_of_loc_m m l : shr_m (shr_record_of_loc m l) = m.
Proof. destruct l as [|[]]; reflexivity. Qed.

Lemma shr_fexp_spec (p e : Z) (m ex : Z) (l : location) :
  0 <= m ->
  let n := fexp p e (Zdigits2 m + ex) - ex in
  (n <= 0 -> shr_fexp p e m ex l = (shr_record_of_loc m l, ex)) /\
  (0 < n -> shr_m (fst (shr_fexp p e m ex l)) = m / 2 ^ n /\
            snd (shr_fexp p e m ex l) = ex + n).
Proof.
  intros H n. unfold shr_fexp. fold n. unfold shr. split; intros Hn.
  - destruct n; try reflexivity. lia.
  - destruct n as [|k|k]; try lia. simpl fst. simpl snd.
    rewrite iter_shr_m by (rewrite shr_record_of_loc_m; exact H).
    rewrite shr_record_of_loc_m. split; reflexivity.
Qed.

Lemma shr_fexp_nonneg (p e : Z) (m ex : Z) (l : location) :
  0 <= m -> 0 <= shr_m (fst (shr_fexp p e m ex l)).
Proof.
  intros H. destruct (shr_fexp_spec p e m ex l H) as [A B].
  destruct (Z_le_gt_dec (fexp p e (Zdigits2 m + ex) - ex) 0) as [C|C].
  - rewrite (A C). simpl. rewrite shr_record_of_loc_m. exact H.
  - destruct (B ltac:(lia)) as [-> _]. apply Z.div_pos; [exact H|].
    apply Z.pow_pos_nonneg; lia.
Qed.

Lemma round_nearest_even_range mx lx :
  mx <= round_nearest_even mx lx <= mx + 1.
Proof.
  unfold round_nearest_even. destruct lx as [|[]]; try lia.
  destruct (Z.even mx); lia.
Qed.

Lemma binary_round_aux_sign (p e : Z) (s : bool) (mx ex : Z) (lx : location) :
  0 <= mx -> has_sign s (binary_round_aux p e s mx ex lx).
Proof.
  intros H. unfold binary_round_aux.
  pose proof (shr_fexp_nonneg p e mx ex lx H) as H1.
  destruct (shr_fexp p e mx ex lx) as [mrs' e'] eqn:E1. simpl fst in H1.
  pose proof (round_nearest_even_range (shr_m mrs') (loc_of_shr_record mrs')).
  set (m1 := round_nearest_even _ _) in *.
  assert (H2 : 0 <= m1) by lia.
  pose proof (shr_fexp_nonneg p e m1 e' loc_Exact H2) as H3.
  destruct (shr_fexp p e m1 e' loc_Exact) as [mrs'' e''] eqn:E2.
  simpl fst in H3.
  destruct (shr_m mrs'') as [|q|q]; simpl.
  - reflexivity.
  - destruct (e'' <=? e - p); reflexivity.
  - lia.
Qed.

Lemma digits_shift (m m' : positive) (k : Z) :
  0 <= k -> Zpos m' = Zpos m * 2 ^ k -> digits m' = digits m + k.
Proof.
  intros K E. apply digits_unique. rewrite E.
  pose proof (digits_bounds m) as [L U]. pose proof (digits_pos m).
  assert (0 < 2 ^ k) by (apply pow2_pos; lia).
  replace (digits m + k - 1) with ((digits m - 1) + k) by lia.
  rewrite (pow2_split (digits m - 1) k), (pow2_split (digits m) k) by lia.
  nia.
Qed.

Lemma digits_div (m q : positive) (n : Z) :
  0 <= n < digits m -> Zpos q = Zpos m / 2 ^ n -> digits q = digits m - n.
Proof.
  intros N E. apply digits_unique. rewrite E.
  pose proof (digits_bounds m) as [L U].
  assert (0 < 2 ^ n) by (apply pow2_pos; lia).
  split.
  - apply Z.div_le_lower_bound; [lia|].
    rewrite <- (pow2_split n (digits m - n - 1)) by lia.
    replace (n + (digits m - n - 1)) with (digits m - 1) by lia. exact L.
  - apply Z.div_lt_upper_bound; [lia|].
    rewrite <- (pow2_split n (digits m - n)) by lia.
    replace (n + (digits m - n)) with (digits m) by lia. exact U.
Qed.

Lemma fexp32 x : fexp 24 128 x = Z.max (x - 24) (-149).
Proof. reflexivity. Qed.

Lemma binary_round_aux_canonical (s : bool) (m : positive) (e : Z) :
  fexp 24 128 (digits m + e) = e -> e <= 104 ->
  binary_round_aux 24 128 s (Zpos m) e loc_Exact = S754_finite s m e.
Proof.
  intros C E. unfold binary_round_aux.
  assert (S : shr_fexp 24 128 (Zpos m) e loc_Exact
              = (shr_record_of_loc (Zpos m) loc_Exact, e)).
  { apply shr_fexp_spec; [lia|]. simpl Zdigits2. fold (digits m). lia. }
  rewrite S. simpl shr_m. simpl loc_of_shr_record. simpl round_nearest_even.
  rewrite S. simpl shr_m.
  replace (e <=? 128 - 24) with true by (symmetry; apply Z.leb_le; lia).
  reflexivity.
Qed.

Lemma valid_canonical (s : bool) (m : positive) (e : Z) :
  fexp 24 128 (digits m + e) = e -> e <= 104 ->
  valid_binary 24 128 (S754_finite s m e) = true.
Proof.
  intros C E. unfold valid_binary, bounded, canonical_mantissa.
  fold (digits m). rewrite C, Z.eqb_refl. simpl. apply Z.leb_le. lia.
Qed.

Lemma binary_round_exact (s : bool) (D : positive) (ez : Z) :
  -149 <= ez <= 104 -> digits D <= 24 ->
  exists m' e',
    binary_round 24 128 s D ez = S754_finite s m' e' /\
    valid_binary 24 128 (S754_finite s m' e') = true /\
    -149 <= e' /\
    Zpos m' * 2 ^ (e' + 149) = Zpos D * 2 ^ (ez + 149).
Proof.
  intros E G. unfold binary_round. fold (digits D).
  set (fe := fexp 24 128 (digits D + ez)).
  assert (F : fe = Z.max (digits D + ez - 24) (-149)) by reflexivity.
  pose proof (digits_pos D).
  destruct (shl_align_spec D ez fe) as [A B].
  destruct (shl_align D ez fe) as [mz e1]. cbn [fst snd] in A, B.
  assert (M : Z.min ez fe = fe) by lia. rewrite M in A, B. subst e1.
  assert (K : digits mz = digits D + (ez - fe))
    by (apply digits_shift; [lia|exact B]).
  assert (C : fexp 24 128 (digits mz + fe) = fe).
  { rewrite K. replace (digits D + (ez - fe) + fe) with (digits D + ez) by lia.
    reflexivity. }
  exists mz, fe. split; [apply binary_round_aux_canonical; [exact C|lia]|].
  split; [apply valid_canonical; [exact C|lia]|].
  split; [lia|].
  rewrite B, <- Z.mul_assoc, <- pow2_split by lia.
  f_equal. f_equal. lia.
Qed.

Lemma binary_round_inexact (s : bool) (D : positive) (ez : Z) :
  -149 <= ez -> 24 < digits D -> digits D + ez <= 127 ->
  let n := digits D - 24 in
  exists m' e',
    binary_round 24 128 s D ez = S754_finite s m' e' /\
    valid_binary 24 128 (S754_finite s m' e') = true /\
    -149 <= e' /\
    (Zpos D / 2 ^ n) * 2 ^ (ez + n + 149) <= Zpos m' * 2 ^ (e' + 149)
      <= (Zpos D / 2 ^ n + 1) * 2 ^ (ez + n + 149).
Proof.
  intros E G O n. unfold binary_round. fold (digits D).
  set (fe := fexp 24 128 (digits D + ez)).
  assert (F : fe = ez + n) by (subst fe n; rewrite fexp32; lia).
  assert (A : shl_align D ez fe = (D, ez)).
  { unfold shl_align. destruct (fe - ez) eqn:X; try reflexivity. lia. }
  rewrite A. unfold binary_round_aux.
  destruct (shr_fexp_spec 24 128 (Zpos D) ez loc_Exact ltac:(lia)) as [_ S1].
  simpl Zdigits2 in S1. fold (digits D) in S1. fold fe in S1.
  destruct (S1 ltac:(lia)) as [Q1 Q2]. clear S1.
  destruct (shr_fexp 24 128 (Zpos D) ez loc_Exact) as [mrs' e'].
  cbn [fst snd] in Q1, Q2.
  replace (fe - ez) with n in Q1 by lia.
  replace (ez + (fe - ez)) with fe in Q2 by lia. subst e'.
  pose proof (digits_bounds D) as [L U].
  assert (P : 0 < 2 ^ n) by (apply pow2_pos; lia).
  assert (QL : 2 ^ 23 <= shr_m mrs').
  { rewrite Q1. apply Z.div_le_lower_bound; [lia|].
    rewrite <- (pow2_split n 23) by lia.
    replace (n + 23) with (digits D - 1) by lia. exact L. }
  assert (QU : shr_m mrs' < 2 ^ 24).
  { rewrite Q1. apply Z.div_lt_upper_bound; [lia|].
    rewrite <- (pow2_split n 24) by lia.
    replace (n + 24) with (digits D) by lia. exact U. }
  pose proof (round_nearest_even_range (shr_m mrs') (loc_of_shr_record mrs'))
    as R.
  rewrite <- Q1.
  set (m1 := round_nearest_even _ _) in *.
  change (2 ^ 23) with 8388608 in *. change (2 ^ 24) with 16777216 in *.
  destruct m1 as [|p1|p1] eqn:M1; try lia.
  assert (P2 : 0 < 2 ^ (fe + 149)) by (apply pow2_pos; lia).
  replace (ez + n + 149) with (fe + 149) by lia.
  destruct (Z_lt_le_dec (Zpos p1) 16777216) as [Lt|Ge].
  - assert (K : digits p1 = 24).
    { apply digits_unique. change (2 ^ (24 - 1)) with 8388608.
      change (2 ^ 24) with 16777216. lia. }
    assert (C : fexp 24 128 (digits p1 + fe) = fe)
      by (rewrite K, fexp32; lia).
    assert (S2 : shr_fexp 24 128 (Zpos p1) fe loc_Exact
                 = (shr_record_of_loc (Zpos p1) loc_Exact, fe)).
    { apply shr_fexp_spec; [lia|]. simpl Zdigits2. fold (digits p1). lia. }
    rewrite S2. simpl shr_m.
    replace (fe <=? 128 - 24) with true by (symmetry; apply Z.leb_le; lia).
    exists p1, fe. split; [reflexivity|].
    split; [apply valid_canonical; [exact C|lia]|].
    split; [lia|]. nia.
  - assert (X : Zpos p1 = 16777216) by lia.
    assert (K : digits p1 = 25).
    { apply digits_unique. rewrite X. simpl. lia. }
    destruct (shr_fexp_spec 24 128 (Zpos p1) fe loc_Exact ltac:(lia))
      as [_ S2].
    simpl Zdigits2 in S2. fold (digits p1) in S2.
    rewrite K, fexp32 in S2.
    replace (Z.max (25 + fe - 24) (-149) - fe) with 1 in S2 by lia.
    destruct (S2 ltac:(lia)) as [T1 T2]. clear S2.
    destruct (shr_fexp 24 128 (Zpos p1) fe loc_Exact) as [mrs'' e''].
    cbn [fst snd] in T1, T2. rewrite T1, X. simpl (16777216 / 2 ^ 1).
    subst e''.
    replace (fe + 1 <=? 128 - 24) with true
      by (symmetry; apply Z.leb_le; lia).
    exists 8388608%positive, (fe + 1). split; [reflexivity|].
    split.
    { apply valid_canonical; [rewrite fexp32|];
        change (digits 8388608) with 24; lia. }
    split; [lia|].
    replace (fe + 1 + 149) with (Z.succ (fe + 149)) by lia.
    rewrite Z.pow_succ_r by lia. nia.
Qed.

Lemma binary_round_upper (s : bool) (D : positive) (ez : Z) :
  -149 <= ez <= 104 -> digits D + ez <= 127 ->
  exists m' e',
    binary_round 24 128 s D ez = S754_finite s m' e' /\
    valid_binary 24 128 (S754_finite s m' e') = true /\
    -149 <= e' /\
    Zpos m' * 2 ^ (e' + 149)
      <= Zpos D * 2 ^ (ez + 149) + 2 ^ (digits D + ez + 125).
Proof.
  intros E O. destruct (Z_le_gt_dec (digits D) 24) as [G|G].
  - destruct (binary_round_exact s D ez E G) as (m' & e' & R & V & E' & X).
    exists m', e'. repeat split; try assumption.
    rewrite X. pose proof (Z.pow_nonneg 2 (digits D + ez + 125)). lia.
  - destruct (binary_round_inexact s D ez ltac:(lia) ltac:(lia) O)
      as (m' & e' & R & V & E' & _ & X).
    exists m', e'. repeat split; try assumption.
    replace (ez + (digits D - 24) + 149) with (digits D + ez + 125) in X
      by lia.
    assert (P : 0 < 2 ^ (digits D - 24)) by (apply pow2_pos; lia).
    pose proof (Z.mul_div_le (Zpos D) (2 ^ (digits D - 24)) P) as M.
    replace (digits D + ez + 125) with ((digits D - 24) + (ez + 149)) in *
      by lia.
    rewrite (pow2_split (digits D - 24) (ez + 149)) in * by lia.
    pow2_gt0 (ez + 149).
    nia.
Qed.

Lemma has_sign_false_le (r : float) :
  has_sign false r -> B32.le B32.zero r = true.
Proof.
  destruct r as [[]|[]| |[] m e]; simpl; intros H; congruence || tauto.
Qed.


Lemma binary_round_sign (s : bool) (m : positive) (e : Z) :
  has_sign s (binary_round 24 128 s m e).
Proof.
  unfold binary_round. destruct (shl_align _ _ _) as [mz ez].
  apply binary_round_aux_sign. lia.
Qed.

Lemma binary_normalize_nonneg (D ez : Z) :
  0 <= D -> B32.le B32.zero (binary_normalize 24 128 D ez false) = true.
Proof.
  intros H. destruct D as [|p|p]; [reflexivity| |lia].
  apply has_sign_false_le, binary_round_sign.
Qed.


Lemma cond_Zopp_mul (s : bool) (a b : Z) :
  cond_Zopp s a * b = cond_Zopp s (a * b).
Proof. destruct s; simpl; lia. Qed.

Lemma sub_scaled sx mx ex sy my ey :
  -149 <= ex -> -149 <= ey ->
  exists D,
    B32.sub (S754_finite sx mx ex) (S754_finite sy my ey)
      = binary_normalize 24 128 D (Z.min ex ey) false /\
    D * 2 ^ (Z.min ex ey + 149)
      = scaled (S754_finite sx mx ex) - scaled (S754_finite sy my ey).
Proof.
  intros Ex Ey. eexists. split; [reflexivity|].
  destruct (shl_align_spec mx ex (Z.min ex ey)) as [_ A].
  destruct (shl_align_spec my ey (Z.min ex ey)) as [_ B].
  rewrite A, B. clear A B.
  replace (Z.min ex (Z.min ex ey)) with (Z.min ex ey) by lia.
  replace (Z.min ey (Z.min ex ey)) with (Z.min ex ey) by lia.
  unfold scaled.
  rewrite Z.mul_sub_distr_r, !cond_Zopp_mul, <- !Z.mul_assoc.
  rewrite <- !pow2_split by lia.
  replace (ex - Z.min ex ey + (Z.min ex ey + 149)) with (ex + 149) by lia.
  replace (ey - Z.min ex ey + (Z.min ex ey + 149)) with (ey + 149) by lia.
  reflexivity.
Qed.

(** ** Order and signs of the arithmetic of the jump step *)

Lemma le_scaled (a b : float) :
  B32.valid a = true -> B32.valid b = true ->
  is_finite a = true -> is_finite b = true ->
  (B32.le a b = true <-> scaled a <= scaled b).
Proof.
  intros Va Vb Fa Fb. unfold B32.le, SFleb.
  rewrite (compare_scaled a b Va Vb Fa Fb).
  destruct (Z.compare_spec (scaled a) (scaled b)); split; intros;
    try reflexivity; try discriminate; lia.
Qed.

Lemma le_trans (a b c : float) :
  B32.valid a = true -> B32.valid b = true -> B32.valid c = true ->
  is_finite a = true -> is_finite b = true -> is_finite c = true ->
  B32.le a b = true -> B32.le b c = true -> B32.le a c = true.
Proof.
  intros Va Vb Vc Fa Fb Fc. rewrite !le_scaled by assumption. lia.
Qed.

Lemma le_refl (a : float) :
  B32.valid a = true -> is_finite a = true -> B32.le a a = true.
Proof. intros V F. rewrite le_scaled by assumption. lia. Qed.

Lemma sub_nonneg (a b : float) :
  B32.valid a = true -> B32.valid b = true ->
  is_finite a = true -> is_finite b = true ->
  B32.le a b = true -> B32.le B32.zero (B32.sub b a) = true.
Proof.
  intros Va Vb Fa Fb L. apply le_scaled in L; try assumption.
  destruct a as [sa|sa| |sa ma ea]; try discriminate Fa;
    destruct b as [sb|sb| |sb mb eb]; try discriminate Fb.
  - destruct sa, sb; reflexivity.
  - pose proof (valid_finite_bounds sb mb eb Vb) as (E & _).
    pow2_gt0 (eb + 149).
    unfold scaled, cond_Zopp in L. destruct sb; [nia|].
    destruct sa; reflexivity.
  - pose proof (valid_finite_bounds sa ma ea Va) as (E & _).
    pow2_gt0 (ea + 149).
    unfold scaled, cond_Zopp in L. destruct sa; [|nia].
    destruct sb; reflexivity.
  - pose proof (valid_finite_bounds sa ma ea Va) as (Ea & _).
    pose proof (valid_finite_bounds sb mb eb Vb) as (Eb & _).
    destruct (sub_scaled sb mb eb sa ma ea ltac:(lia) ltac:(lia))
      as (D & S & X).
    rewrite S. apply binary_normalize_nonneg.
    pow2_gt0 (Z.min eb ea + 149).
    nia.
Qed.

Lemma SFdiv_core_nonneg (p e : Z) (m1 : positive) (e1 : Z) (m2 : positive)
    (e2 : Z) :
  0 <= fst (fst (SFdiv_core_binary p e (Zpos m1) e1 (Zpos m2) e2)).
Proof.
  unfold SFdiv_core_binary.
  set (sh := _ - _ - _).
  set (m' := match sh with
             | 0 => Zpos m1
             | Zpos _ => Z.shiftl (Zpos m1) sh
             | Zneg _ => 0
             end).
  assert (M : 0 <= m').
  { subst m'. destruct sh; try lia. apply Z.shiftl_nonneg. lia. }
  pose proof (Z.div_pos m' (Zpos m2) M ltac:(lia)) as Q.
  unfold Z.div in Q. destruct (Z.div_eucl m' (Zpos m2)) as [q r].
  exact Q.
Qed.

Lemma div_one_nonneg (x : float) :
  B32.le B32.zero x = true -> B32.le B32.zero (B32.div x B32.one) = true.
Proof.
  destruct x as [[]|[]| |[] m e]; try discriminate; try reflexivity.
  intros _. unfold B32.div, SFdiv, B32.one.
  pose proof (SFdiv_core_nonneg B32.prec B32.emax m e 8388608 (-23)) as Q.
  destruct (SFdiv_core_binary _ _ _ _ _ _) as [[mz ez] lz].
  apply has_sign_false_le. apply binary_round_aux_sign. exact Q.
Qed.

Lemma mul_half_nonneg (v : float) :
  B32.le B32.zero v = true -> B32.le B32.zero (B32.mul v B32.half) = true.
Proof.
  destruct v as [[]|[]| |[] m e]; try discriminate; try reflexivity.
  intros _. unfold B32.mul, SFmul, B32.half.
  apply has_sign_false_le. apply binary_round_aux_sign. lia.
Qed.

Lemma jumpProgress_nonneg (start now : float) :
  B32.valid start = true -> B32.valid now = true ->
  is_finite start = true -> is_finite now = true ->
  B32.le start now = true ->
  B32.le B32.zero (jumpProgress now start) = true.
Proof.
  intros. unfold jumpProgress, jumpDuration.
  apply div_one_nonneg. now apply sub_nonneg.
Qed.

(** ** The collision test *)

Lemma not_lt_le (a b : float) :
  B32.is_nan a = false -> B32.is_nan b = false ->
  (B32.lt a b = false <-> B32.le b a = true).
Proof.
  intros Ha Hb. unfold B32.lt, B32.le, SFltb, SFleb.
  rewrite (SFcompare_antisym a b).
  destruct a, b; try discriminate Ha; try discriminate Hb;
    destruct (SFcompare _ _) as [[]|] eqn:E; simpl; try (split; congruence);
    simpl in E; discriminate E.
Qed.

Lemma checkCollision_false_iff x1 y1 width1 height1 x2 y2 width2 height2 :
  checkCollision x1 y1 width1 height1 x2 y2 width2 height2 = false <->
  apart x1 y1 width1 height1 x2 y2 width2 height2.
Proof.
  unfold checkCollision, apart, before. rewrite !gt_lt.
  rewrite negb_false_iff, !orb_true_iff. tauto.
Qed.

Lemma checkCollision_true_iff x1 y1 width1 height1 x2 y2 width2 height2 :
  checkCollision x1 y1 width1 height1 x2 y2 width2 height2 = true <->
  overlap x1 y1 width1 height1 x2 y2 width2 height2.
Proof.
  unfold overlap. rewrite <- checkCollision_false_iff.
  destruct (checkCollision _ _ _ _ _ _ _ _); split; congruence.
Qed.

Lemma overlap_meet x1 y1 width1 height1 x2 y2 width2 height2 :
  numbers [x1; y1; x2; y2; B32.add x1 width1; B32.add y1 height1;
           B32.add x2 width2; B32.add y2 height2] ->
  (overlap x1 y1 width1 height1 x2 y2 width2 height2 <->
   meet x1 width1 x2 width2 /\ meet y1 height1 y2 height2).
Proof.
  intros H. unfold numbers in H.
  repeat match goal with
         | H : Forall _ (_ :: _) |- _ => apply Forall_cons_iff in H; destruct H
         end.
  unfold overlap, apart, before, meet.
  rewrite <- !not_lt_le by assumption.
  split.
  - intros N. repeat split;
      match goal with
      | |- B32.lt ?a ?b = false =>
          destruct (B32.lt a b) eqn:E; [exfalso; apply N; tauto | reflexivity]
      end.
  - intros [[A B] [C D]] [E|[E|[E|E]]]; congruence.
Qed.

(** C1. [checkCollision] returns true exactly when the two boxes overlap on
    both axes, that is when none of the four separating gaps exists; for
    boxes whose edges are numbers this is the boundary-inclusive meeting of
    the two closed intervals on each axis.  It is false for (0,0,1,1) and
    (5,5,1,1), true for two copies of (0,0,1,1), and an edge that touches
    ([x1 + width1 = x2]) is never a gap. *)
Theorem checkCollision_overlap :
  (forall x1 y1 width1 height1 x2 y2 width2 height2,
      checkCollision x1 y1 width1 height1 x2 y2 width2 height2 = true <->
      overlap x1 y1 width1 height1 x2 y2 width2 height2) /\
  (forall x1 y1 width1 height1 x2 y2 width2 height2,
      numbers [x1; y1; x2; y2; B32.add x1 width1; B32.add y1 height1;
               B32.add x2 width2; B32.add y2 height2] ->
      (checkCollision x1 y1 width1 height1 x2 y2 width2 height2 = true <->
       meet x1 width1 x2 width2 /\ meet y1 height1 y2 height2)) /\
  checkCollision B32.zero B32.zero B32.one B32.one
                 (B32.literal 5 1) (B32.literal 5 1) B32.one B32.one = false /\
  checkCollision B32.zero B32.zero B32.one B32.one
                 B32.zero B32.zero B32.one B32.one = true /\
  checkCollision B32.zero B32.zero B32.one B32.one
                 B32.one B32.zero B32.one B32.one = true /\
  (forall x1 y1 width1 height1 x2 y2 width2 height2,
      B32.eq (B32.add x1 width1) x2 = true ->
      ~ before (B32.add x1 width1) x2 /\
      checkCollision x1 y1 width1 height1 x2 y2 width2 height2 =
      negb (B32.gt x1 (B32.add x2 width2)
            || B32.lt (B32.add y1 height1) y2
            || B32.gt y1 (B32.add y2 height2))).
Proof.
  split; [exact checkCollision_true_iff|].
  split.
  { intros. rewrite checkCollision_true_iff. now apply overlap_meet. }
  split; [vm_compute; reflexivity|].
  split; [vm_compute; reflexivity|].
  split; [vm_compute; reflexivity|].
  intros x1 y1 width1 height1 x2 y2 width2 height2 E.
  assert (L : B32.lt (B32.add x1 width1) x2 = false).
  { revert E. unfold B32.eq, B32.lt, SFeqb, SFltb.
    destruct (SFcompare _ _) as [[]|]; congruence. }
  split.
  - unfold before. congruence.
  - unfold checkCollision. rewrite L. reflexivity.
Qed.

(** The second part of [checkCollision_overlap] at two boxes that share
    the edge [x = 1]. *)
Lemma checkCollision_overlap_witness :
  numbers [B32.zero; B32.zero; B32.one; B32.zero;
           B32.add B32.zero B32.one; B32.add B32.zero B32.one;
           B32.add B32.one B32.one; B32.add B32.zero B32.one] /\
  (checkCollision B32.zero B32.zero B32.one B32.one
                  B32.one B32.zero B32.one B32.one = true <->
   meet B32.zero B32.one B32.one B32.one /\
   meet B32.zero B32.one B32.zero B32.one).
Proof.
  assert (N : numbers [B32.zero; B32.zero; B32.one; B32.zero;
           B32.add B32.zero B32.one; B32.add B32.zero B32.one;
           B32.add B32.one B32.one; B32.add B32.zero B32.one]).
  { repeat constructor. }
  split; [exact N|].
  exact (proj1 (proj2 checkCollision_overlap) _ _ _ _ _ _ _ _ N).
Defined.

(** C5. [checkCollision] gives the same answer when the two boxes are
    swapped, on every input. *)
Theorem checkCollision_sym x1 y1 width1 height1 x2 y2 width2 height2 :
  checkCollision x1 y1 width1 height1 x2 y2 width2 height2 =
  checkCollision x2 y2 width2 height2 x1 y1 width1 height1.
Proof.
  unfold checkCollision. rewrite !gt_lt. f_equal.
  destruct (B32.lt (B32.add x1 width1) x2), (B32.lt (B32.add x2 width2) x1),
    (B32.lt (B32.add y1 height1) y2), (B32.lt (B32.add y2 height2) y1);
    reflexivity.
Qed.

(** C10. A nonzero direction code of [checkCollisionDirection] implies that
    [checkCollision] is true on the same arguments. *)
Theorem checkCollisionDirection_collides
    x1 y1 width1 height1 x2 y2 width2 height2 :
  checkCollisionDirection x1 y1 width1 height1 x2 y2 width2 height2 <> 0 ->
  checkCollision x1 y1 width1 height1 x2 y2 width2 height2 = true.
Proof.
  unfold checkCollisionDirection, checkCollision. rewrite !gt_lt.
  destruct (B32.lt x2 (B32.add x1 width1)) eqn:A; simpl; [|congruence].
  destruct (B32.lt x1 (B32.add x2 width2)) eqn:B; simpl; [|congruence].
  destruct (B32.lt y2 (B32.add y1 height1)) eqn:C; simpl; [|congruence].
  destruct (B32.lt y1 (B32.add y2 height2)) eqn:D; simpl; [|congruence].
  intros _.
  rewrite (lt_irrefl_pair _ _ A), (lt_irrefl_pair _ _ B),
    (lt_irrefl_pair _ _ C), (lt_irrefl_pair _ _ D). reflexivity.
Qed.

(** [checkCollisionDirection_collides] at the triangle's box overlapping the
    left edge of a unit box: the direction code is 1. *)
Lemma checkCollisionDirection_collides_witness :
  checkCollisionDirection B32.zero B32.zero B32.one B32.one
                          B32.half B32.zero B32.one B32.one = 1 /\
  checkCollision B32.zero B32.zero B32.one B32.one
                 B32.half B32.zero B32.one B32.one = true.
Proof.
  split; [vm_compute; reflexivity|].
  apply checkCollisionDirection_collides. vm_compute. discriminate.
Defined.

(** ** The translation matrix *)

(** C6. [createTranslationMatrix x y] fills a 16-slot array with the
    row-major identity, [x] in slot 3 and [y] in slot 7: the translation
    entries are (x, y, 0), the diagonal slots 0, 5, 10, 15 hold 1 and every
    other slot holds 0. *)
Theorem createTranslationMatrix_entries (x y : float) (matrix : list float) :
  length matrix = 16%nat ->
  createTranslationMatrix x y matrix =
    [B32.one; B32.zero; B32.zero; x;
     B32.zero; B32.one; B32.zero; y;
     B32.zero; B32.zero; B32.one; B32.zero;
     B32.zero; B32.zero; B32.zero; B32.one] /\
  (createTranslationMatrix x y matrix !! 3%nat = Some x /\
   createTranslationMatrix x y matrix !! 7%nat = Some y /\
   createTranslationMatrix x y matrix !! 11%nat = Some B32.zero) /\
  (forall i, (i < 16)%nat -> i <> 3%nat -> i <> 7%nat ->
     createTranslationMatrix x y matrix !! i =
     Some (if Nat.eqb (i mod 5) 0 then B32.one else B32.zero)).
Proof.
  intros L.
  do 16 (destruct matrix as [|? matrix]; [discriminate L|]).
  destruct matrix; [|discriminate L].
  split; [reflexivity|]. split; [repeat split; reflexivity|].
  intros i Hi H3 H7.
  do 16 (destruct i as [|i]; [try reflexivity; congruence|]).
  lia.
Qed.

(** [createTranslationMatrix_entries] at (x, y) = (2, 3) on an array of
    zeros: the translation column is (2, 3, 0). *)
Lemma createTranslationMatrix_entries_witness :
  let m := createTranslationMatrix (B32.literal 2 1) (B32.literal 3 1)
             (repeat B32.zero 16) in
  m !! 3%nat = Some (B32.literal 2 1) /\
  m !! 7%nat = Some (B32.literal 3 1) /\
  m !! 11%nat = Some B32.zero.
Proof.
  exact (proj1 (proj2 (createTranslationMatrix_entries
           (B32.literal 2 1) (B32.literal 3 1) (repeat B32.zero 16)
           eq_refl))).
Defined.

(** ** The input step *)

(** C7. With space pressed and [isJumping] false the input step sets
    [isJumping], records the current frame time in [jumpStartTime] and
    clears [isFalling]; with space pressed and [isJumping] already true it
    leaves the state unchanged. *)
Theorem input_step_space (currentFrame : float) (s : Motion) :
  (isJumping s = false ->
   input_step currentFrame true s =
     {| translationX := translationX s;
        isJumping := true;
        isFalling := false;
        jumpHeight := jumpHeight s;
        jumpStartTime := currentFrame;
        deltaTime := deltaTime s;
        lastFrame := lastFrame s |}) /\
  (isJumping s = true -> input_step currentFrame true s = s).
Proof.
  unfold input_step. split; intros ->; reflexivity.
Qed.

(** [input_step_space] at the initial state, space pressed at time 1. *)
Lemma input_step_space_witness :
  isJumping (input_step B32.one true initial) = true /\
  jumpStartTime (input_step B32.one true initial) = B32.one /\
  isFalling (input_step B32.one true initial) = false /\
  input_step B32.half true (input_step B32.one true initial) =
  input_step B32.one true initial.
Proof.
  pose proof (proj1 (input_step_space B32.one initial) eq_refl) as E.
  pose proof (proj2 (input_step_space B32.half
                       (input_step B32.one true initial)) eq_refl) as U.
  rewrite U, E. repeat split.
Defined.

(** ** The jump step *)

Lemma frame_jump_balance (sinf : float -> float) (f : Frame) (s : Motion) :
  (flag (starts_jump f s) + flag (isJumping s) =
   flag (ends_jump f s) + flag (isJumping (frame_step sinf f s)))%nat.
Proof.
  unfold ends_jump.
  change (frame_step sinf f s)
    with (fall_step (jump_step sinf (glfwGetTime f) (before_jump f s))).
  assert (F : forall t, isJumping (fall_step t) = isJumping t).
  { intros t. unfold fall_step.
    destruct (isFalling t); [destruct (B32.le _ _)|]; reflexivity. }
  rewrite F. unfold jump_step.
  assert (B : isJumping (before_jump f s) = starts_jump f s || isJumping s).
  { unfold before_jump, input_step, starts_jump. simpl.
    destruct (key_space f), (isJumping s) eqn:E; simpl; rewrite ?E;
      reflexivity. }
  destruct (isJumping (before_jump f s)) eqn:J.
  - destruct (B32.lt _ B32.one); simpl; rewrite ?J;
      unfold starts_jump in *; destruct (key_space f), (isJumping s);
      simpl in *; congruence.
  - rewrite J. unfold starts_jump in *.
    destruct (key_space f), (isJumping s); simpl in *; congruence.
Qed.

(** C2. While [isJumping] holds, the jump step computes
    [progress = (now - jumpStartTime) / jumpDuration]; when [progress < 1]
    the offset becomes [sinf (progress * M_PI) * 0.5f], the product being
    the [double] one narrowed to [float], and the flags stay; at the
    progress 0, 0.25, 0.5 and 0.75 the argument of [sinf] is 0 and the
    binary32 value of pi/4, pi/2 and 3 pi/4; when [progress >= 1] the step
    zeroes the offset, clears [isJumping] and sets [isFalling].  Over any
    run of the loop the iterations that end a jump and those that start one
    balance: each jump ends exactly once. *)
Theorem jump_step_curve (sinf : float -> float) :
  (forall now s, isJumping s = true ->
     B32.lt (B32.div (B32.sub now (jumpStartTime s)) jumpDuration) B32.one
     = true ->
     jump_step sinf now s =
       {| translationX := translationX s;
          isJumping := true;
          isFalling := isFalling s;
          jumpHeight :=
            B32.mul
              (sinf (B64.to_float
                       (B64.mul
                          (B64.of_float
                             (B32.div (B32.sub now (jumpStartTime s))
                                      jumpDuration))
                          B64.M_PI)))
              B32.half;
          jumpStartTime := jumpStartTime s;
          deltaTime := deltaTime s;
          lastFrame := lastFrame s |}) /\
  (forall now s, isJumping s = true ->
     B32.le B32.one (B32.div (B32.sub now (jumpStartTime s)) jumpDuration)
     = true ->
     jump_step sinf now s =
       {| translationX := translationX s;
          isJumping := false;
          isFalling := true;
          jumpHeight := B32.zero;
          jumpStartTime := jumpStartTime s;
          deltaTime := deltaTime s;
          lastFrame := lastFrame s |}) /\
  (forall now s, isJumping s = false -> jump_step sinf now s = s) /\
  (forall s, isJumping s = true -> jumpStartTime s = B32.zero ->
     jumpHeight (jump_step sinf B32.zero s) =
       B32.mul (sinf B32.zero) B32.half /\
     jumpHeight (jump_step sinf B32.quarter s) =
       B32.mul (sinf (B32.literal 78539816339744830961566
                                  100000000000000000000000))
               B32.half /\
     jumpHeight (jump_step sinf B32.half s) =
       B32.mul (sinf (B32.literal 157079632679489661923132
                                  100000000000000000000000))
               B32.half /\
     jumpHeight (jump_step sinf B32.three_quarters s) =
       B32.mul (sinf (B32.literal 235619449019234492884698
                                  100000000000000000000000))
               B32.half /\
     jump_step sinf B32.one s =
       {| translationX := translationX s;
          isJumping := false;
          isFalling := true;
          jumpHeight := B32.zero;
          jumpStartTime := jumpStartTime s;
          deltaTime := deltaTime s;
          lastFrame := lastFrame s |}) /\
  (forall fs s,
     (count_frames sinf starts_jump fs s + flag (isJumping s) =
      count_frames sinf ends_jump fs s + flag (isJumping (run sinf fs s)))%nat).
Proof.
  split; [|split; [|split; [|split]]].
  - intros now s J P. unfold jump_step, jumpProgress. rewrite J, P.
    reflexivity.
  - intros now s J P. unfold jump_step, jumpProgress.
    rewrite J, (le_not_lt _ _ P). reflexivity.
  - intros now s J. unfold jump_step. rewrite J. reflexivity.
  - intros s J T. unfold jump_step. rewrite J, T.
    repeat split; cbn [jumpHeight]; unfold jump_offset; do 2 f_equal;
      vm_compute; reflexivity.
  - induction fs as [|f fs IH]; intros s; simpl; [reflexivity|].
    specialize (IH (frame_step sinf f s)).
    pose proof (frame_jump_balance sinf f s) as B.
    change (run sinf (f :: fs) s) with (run sinf fs (frame_step sinf f s)).
    destruct (starts_jump f s), (ends_jump f s); simpl in *; lia.
Qed.

(** [jump_step_curve] on a jump started at time 0.25, sampled at time 0.75,
    where the progress is 0.5 and the offset follows the curve, and at time
    1.25, where the jump ends. *)
Lemma jump_step_curve_witness :
  let s := input_step B32.quarter true initial in
  isJumping s = true /\
  B32.lt (B32.div (B32.sub B32.three_quarters (jumpStartTime s)) jumpDuration)
         B32.one = true /\
  jumpHeight (jump_step sinf_parabola B32.three_quarters s) =
    B32.mul (sinf_parabola (S754_finite false 13176795 (-23))) B32.half /\
  B32.le B32.one
         (B32.div (B32.sub (B32.literal 5 4) (jumpStartTime s)) jumpDuration)
  = true /\
  isFalling (jump_step sinf_parabola (B32.literal 5 4) s) = true /\
  jumpHeight (jump_step sinf_parabola (B32.literal 5 4) s) = B32.zero.
Proof.
  intros s.
  assert (J : isJumping s = true) by reflexivity.
  assert (P : B32.lt (B32.div (B32.sub B32.three_quarters (jumpStartTime s))
                              jumpDuration) B32.one = true)
    by (vm_compute; reflexivity).
  assert (Q : B32.le B32.one
                (B32.div (B32.sub (B32.literal 5 4) (jumpStartTime s))
                         jumpDuration) = true)
    by (vm_compute; reflexivity).
  pose proof (proj1 (jump_step_curve sinf_parabola) B32.three_quarters s J P)
    as A.
  pose proof (proj1 (proj2 (jump_step_curve sinf_parabola))
                (B32.literal 5 4) s J Q) as B.
  rewrite A, B. cbn [jumpHeight isFalling].
  repeat split; assumption.
Defined.

(** ** The fall step inside the loop *)

Lemma fall_after_landing (s : Motion) :
  isFalling s = true -> jumpHeight s = B32.zero ->
  isFalling (fall_step s) = false /\ jumpHeight (fall_step s) = B32.zero /\
  isJumping (fall_step s) = isJumping s.
Proof.
  intros F H. unfold fall_step. rewrite F, H.
  change (B32.le (B32.sub B32.zero jumpSpeed) B32.zero) with true.
  simpl. repeat split.
Qed.

Lemma fall_step_idle (s : Motion) :
  isFalling s = false -> fall_step s = s.
Proof. unfold fall_step. now intros ->. Qed.

Lemma jump_step_falling (sinf : float -> float) (now : float) (s : Motion) :
  isFalling s = false ->
  isFalling (jump_step sinf now s) = true ->
  isJumping s = true /\
  B32.lt (jumpProgress now (jumpStartTime s)) B32.one = false /\
  jumpHeight (jump_step sinf now s) = B32.zero /\
  isJumping (jump_step sinf now s) = false.
Proof.
  unfold jump_step. intros F.
  destruct (isJumping s); [|congruence].
  destruct (B32.lt _ _); simpl; [congruence|]. repeat split.
Qed.

Lemma frame_step_not_falling (sinf : float -> float) (f : Frame) (s : Motion) :
  isFalling s = false -> isFalling (frame_step sinf f s) = false.
Proof.
  intros F. unfold frame_step.
  set (s1 := input_step _ _ _).
  assert (F1 : isFalling s1 = false).
  { subst s1. unfold input_step. destruct (_ && _); simpl; [reflexivity|].
    exact F. }
  destruct (isFalling (jump_step sinf (glfwGetTime f) s1)) eqn:F2.
  - destruct (jump_step_falling sinf _ _ F1 F2) as (_ & _ & H & _).
    now apply fall_after_landing.
  - rewrite fall_step_idle by exact F2. exact F2.
Qed.

(** C9. [isFalling] is false at the end of every iteration of the loop: a
    jump that completes zeroes the offset and sets [isFalling], and the
    fall branch of the same iteration clamps the offset to 0 and clears the
    flag again, so no iteration ever starts in the falling phase. *)
Theorem isFalling_cleared_each_frame (sinf : float -> float) :
  (forall fs, isFalling (run sinf fs initial) = false) /\
  (forall f s, isFalling s = false ->
     isFalling (frame_step sinf f s) = false) /\
  (forall now s, isJumping s = true ->
     B32.lt (jumpProgress now (jumpStartTime s)) B32.one = false ->
     isFalling (jump_step sinf now s) = true /\
     jumpHeight (jump_step sinf now s) = B32.zero /\
     isFalling (fall_step (jump_step sinf now s)) = false /\
     jumpHeight (fall_step (jump_step sinf now s)) = B32.zero).
Proof.
  split; [|split].
  - intros fs. unfold run.
    assert (G : forall s, isFalling s = false ->
                isFalling (fold_left (fun s f => frame_step sinf f s) fs s)
                = false).
    { induction fs as [|f fs IH]; intros s F; simpl; [exact F|].
      apply IH. now apply frame_step_not_falling. }
    now apply G.
  - apply frame_step_not_falling.
  - intros now s J P.
    assert (E : jump_step sinf now s =
                {| translationX := translationX s;
                   isJumping := false;
                   isFalling := true;
                   jumpHeight := B32.zero;
                   jumpStartTime := jumpStartTime s;
                   deltaTime := deltaTime s;
                   lastFrame := lastFrame s |}).
    { unfold jump_step. now rewrite J, P. }
    rewrite E. repeat split.
Qed.

(** [isFalling_cleared_each_frame] on a jump started at time 0 and sampled
    at time 1, where it completes. *)
Lemma isFalling_cleared_each_frame_witness :
  let s := input_step B32.zero true initial in
  isJumping s = true /\
  B32.lt (jumpProgress B32.one (jumpStartTime s)) B32.one = false /\
  isFalling (jump_step sinf_parabola B32.one s) = true /\
  isFalling (fall_step (jump_step sinf_parabola B32.one s)) = false.
Proof.
  intros s.
  assert (J : isJumping s = true) by reflexivity.
  assert (P : B32.lt (jumpProgress B32.one (jumpStartTime s)) B32.one = false)
    by (vm_compute; reflexivity).
  destruct (proj2 (proj2 (isFalling_cleared_each_frame sinf_parabola))
              B32.one s J P) as (A & _ & C & _).
  repeat split; assumption.
Defined.

(** ** Rounding to nearest

    The round bit left by a right shift is the highest bit shifted out, so
    the rounded mantissa exceeds the exact one by at most half a unit in
    the last place. *)

Lemma shr_1_r mrs : 0 <= shr_m mrs -> shr_r (shr_1 mrs) = Z.odd (shr_m mrs).
Proof.
  destruct mrs as [m r s]. simpl shr_m. intros H.
  destruct m as [|[p|p|]|p]; try reflexivity. lia.
Qed.

Lemma iter_shr_nonneg (n : positive) (mrs : shr_record) :
  0 <= shr_m mrs -> 0 <= shr_m (SpecFloat.iter_pos shr_1 n mrs).
Proof.
  intros H. rewrite iter_shr_m by exact H.
  apply Z.div_pos; [exact H|]. apply Z.pow_pos_nonneg; lia.
Qed.

Lemma iter_shr_r (n : positive) :
  forall mrs, 0 <= shr_m mrs ->
    shr_r (SpecFloat.iter_pos shr_1 n mrs)
    = Z.testbit (shr_m mrs) (Zpos n - 1).
Proof.
  induction n as [n IH|n IH|]; intros mrs H; simpl SpecFloat.iter_pos.
  - assert (H1 : 0 <= shr_m (shr_1 mrs)).
    { rewrite shr_1_m by exact H. apply Z.div_pos; lia. }
    rewrite IH by (apply iter_shr_nonneg; exact H1).
    rewrite iter_shr_m by exact H1. rewrite shr_1_m by exact H.
    rewrite Z.div_pow2_bits by lia.
    change 2 with (2 ^ 1) at 1. rewrite Z.div_pow2_bits by lia.
    f_equal. lia.
  - rewrite IH by (apply iter_shr_nonneg; exact H).
    rewrite iter_shr_m by exact H.
    rewrite Z.div_pow2_bits by lia. f_equal. lia.
  - rewrite shr_1_r by exact H. symmetry. apply Z.bit0_odd.
Qed.




Lemma digits_from_bound (D : positive) (k t : Z) :
  0 <= k -> Zpos D * 2 ^ k < 2 ^ t -> digits D + k <= t.
Proof.
  intros K H. pose proof (digits_bounds D) as [L _].
  pose proof (digits_pos D). pow2_gt0 k.
  assert (T : 2 ^ (digits D - 1 + k) < 2 ^ t).
  { rewrite (pow2_split (digits D - 1) k) by lia. nia. }
  apply Z.pow_lt_mono_r_iff in T; try lia.
  destruct (Z_lt_le_dec t 0); [|lia].
  rewrite (Z.pow_neg_r 2 t) in H by lia. nia.
Qed.

(** The sticky bit: once a bit of an odd number has been shifted out, the
    discarded part is not exactly half a unit, and a round bit that is set
    rounds up. *)

Lemma iter_pos_nat {A : Type} (f : A -> A) (n : positive) :
  forall x, SpecFloat.iter_pos f n x = Nat.iter (Pos.to_nat n) f x.
Proof.
  induction n as [n IH|n IH|]; intros x; simpl SpecFloat.iter_pos.
  - rewrite !IH, Pos2Nat.inj_xI.
    replace (S (2 * Pos.to_nat n))
      with (Pos.to_nat n + (Pos.to_nat n + 1))%nat by lia.
    rewrite !Nat.iter_add. reflexivity.
  - rewrite !IH, Pos2Nat.inj_xO.
    replace (2 * Pos.to_nat n)%nat
      with (Pos.to_nat n + Pos.to_nat n)%nat by lia.
    now rewrite Nat.iter_add.
  - reflexivity.
Qed.

Lemma shr_1_s mrs : shr_s (shr_1 mrs) = shr_r mrs || shr_s mrs.
Proof. destruct mrs as [[|[p|p|]|[p|p|]] r s]; reflexivity. Qed.

Lemma sticky_stays (k : nat) (mrs : shr_record) :
  shr_s mrs = true -> shr_s (Nat.iter k shr_1 mrs) = true.
Proof.
  intros H. induction k as [|k IH]; [exact H|].
  simpl Nat.iter. rewrite shr_1_s, IH. apply orb_true_r.
Qed.

Lemma iter_shr_s (D : Z) (p : positive) :
  0 <= D -> Z.odd D = true -> 2 <= Zpos p ->
  shr_s (SpecFloat.iter_pos shr_1 p (shr_record_of_loc D loc_Exact)) = true.
Proof.
  intros H O P. rewrite iter_pos_nat.
  destruct (Pos.to_nat p) as [|[|k]] eqn:E; try lia.
  rewrite !Nat.iter_succ_r. apply sticky_stays.
  rewrite shr_1_s, shr_1_r by (simpl; exact H). simpl shr_m. rewrite O.
  reflexivity.
Qed.

Lemma mod_testbit (D n : Z) :
  0 <= D -> 0 < n -> 2 ^ (n - 1) <= D mod 2 ^ n ->
  Z.testbit D (n - 1) = true.
Proof.
  intros HD Hn T. apply Z.testbit_true; [lia|].
  assert (P : 0 < 2 ^ (n - 1)) by (apply pow2_pos; lia).
  assert (E : 2 ^ n = 2 ^ (n - 1) * 2).
  { replace n with (Z.succ (n - 1)) at 1 by lia.
    rewrite Z.pow_succ_r by lia. lia. }
  pose proof (Z.div_mod D (2 ^ n) ltac:(lia)) as A.
  pose proof (Z.mod_pos_bound D (2 ^ n) ltac:(lia)) as B.
  set (q := D / 2 ^ n) in *. set (r := D mod 2 ^ n) in *.
  assert (Q : D / 2 ^ (n - 1) = 2 * q + 1).
  { symmetry. apply (Z.div_unique D (2 ^ (n - 1)) (2 * q + 1)
                       (r - 2 ^ (n - 1))); [lia|].
    rewrite A at 1. rewrite E. ring. }
  rewrite Q. rewrite Z.add_comm, Z.mul_comm, Z.mod_add by lia. reflexivity.
Qed.

Lemma round_up_after_shift (D : Z) (p : positive) :
  0 <= D -> Z.odd D = true -> 2 <= Zpos p ->
  2 ^ (Zpos p - 1) <= D mod 2 ^ Zpos p ->
  let mrs := SpecFloat.iter_pos shr_1 p (shr_record_of_loc D loc_Exact) in
  round_nearest_even (shr_m mrs) (loc_of_shr_record mrs)
  = D / 2 ^ Zpos p + 1.
Proof.
  intros H O P T mrs.
  assert (M : shr_m mrs = D / 2 ^ Zpos p).
  { subst mrs. rewrite iter_shr_m by (simpl; exact H). reflexivity. }
  assert (R : shr_r mrs = true).
  { subst mrs. rewrite iter_shr_r by (simpl; exact H). simpl shr_m.
    apply mod_testbit; [exact H|lia|exact T]. }
  assert (S : shr_s mrs = true) by (apply iter_shr_s; assumption).
  destruct mrs as [m r s]. simpl in M, R, S. subst m r s. reflexivity.
Qed.

Lemma binary_round_up (s : bool) (D : positive) (ez : Z) (p : positive) :
  -149 <= ez -> digits D = 24 + Zpos p -> 2 <= Zpos p ->
  Z.odd (Zpos D) = true ->
  2 ^ (Zpos p - 1) <= Zpos D mod 2 ^ Zpos p ->
  (forall m, Zpos m = Zpos D / 2 ^ Zpos p + 1 -> Zpos m < 16777216 ->
     ez + Zpos p <= 104 ->
     binary_round 24 128 s D ez = S754_finite s m (ez + Zpos p)) /\
  (Zpos D / 2 ^ Zpos p + 1 = 16777216 -> ez + Zpos p + 1 <= 104 ->
     binary_round 24 128 s D ez = S754_finite s 8388608 (ez + Zpos p + 1)).
Proof.
  intros E G P O T.
  unfold binary_round. fold (digits D).
  set (fe := fexp 24 128 (digits D + ez)).
  assert (F : fe = ez + Zpos p) by (subst fe; rewrite fexp32; lia).
  assert (A : shl_align D ez fe = (D, ez)).
  { unfold shl_align. destruct (fe - ez) eqn:X; try reflexivity. lia. }
  rewrite A. unfold binary_round_aux.
  assert (S1 : shr_fexp 24 128 (Zpos D) ez loc_Exact
               = (SpecFloat.iter_pos shr_1 p
                    (shr_record_of_loc (Zpos D) loc_Exact), fe)).
  { unfold shr_fexp, shr. simpl Zdigits2. fold (digits D). fold fe.
    replace (fe - ez) with (Zpos p) by lia. f_equal. lia. }
  rewrite S1.
  pose proof (round_up_after_shift (Zpos D) p ltac:(lia) O P T) as U.
  cbv zeta in U. rewrite U. clear U. rewrite <- F.
  pose proof (digits_bounds D) as [L _].
  assert (Pp : 0 < 2 ^ Zpos p) by (apply pow2_pos; lia).
  assert (QL : 2 ^ 23 <= Zpos D / 2 ^ Zpos p).
  { apply Z.div_le_lower_bound; [lia|].
    rewrite <- (pow2_split (Zpos p) 23) by lia.
    replace (Zpos p + 23) with (digits D - 1) by lia. exact L. }
  change (2 ^ 23) with 8388608 in QL.
  split.
  - intros m M Lt B. rewrite <- M.
    assert (K : digits m = 24).
    { apply digits_unique. change (2 ^ (24 - 1)) with 8388608.
      change (2 ^ 24) with 16777216. lia. }
    assert (C : fexp 24 128 (digits m + fe) = fe)
      by (rewrite K, fexp32; lia).
    assert (S2 : shr_fexp 24 128 (Zpos m) fe loc_Exact
                 = (shr_record_of_loc (Zpos m) loc_Exact, fe)).
    { apply shr_fexp_spec; [lia|]. simpl Zdigits2. fold (digits m). lia. }
    rewrite S2. simpl shr_m.
    replace (fe <=? 128 - 24) with true by (symmetry; apply Z.leb_le; lia).
    reflexivity.
  - intros X B. rewrite X.
    destruct (shr_fexp_spec 24 128 16777216 fe loc_Exact ltac:(lia))
      as [_ S2].
    change (Zdigits2 16777216) with 25 in S2.
    rewrite fexp32 in S2.
    replace (Z.max (25 + fe - 24) (-149) - fe) with 1 in S2 by lia.
    destruct (S2 ltac:(lia)) as [T1 T2]. clear S2.
    destruct (shr_fexp 24 128 16777216 fe loc_Exact) as [mrs'' e''].
    cbn [fst snd] in T1, T2. rewrite T1. simpl (16777216 / 2 ^ 1).
    subst e''.
    replace (fe + 1 <=? 128 - 24) with true
      by (symmetry; apply Z.leb_le; lia).
    reflexivity.
Qed.

(** ** The fall step on its own *)

(** Whatever the offset, a fall step leaves an offset that is not negative,
    and it clears [isFalling] only together with setting the offset to 0. *)
Lemma fall_step_not_negative (s : Motion) :
  isFalling s = true ->
  B32.lt (jumpHeight (fall_step s)) B32.zero = false /\
  (isFalling (fall_step s) = false -> jumpHeight (fall_step s) = B32.zero).
Proof.
  intros F. unfold fall_step. rewrite F.
  destruct (B32.le (B32.sub (jumpHeight s) jumpSpeed) B32.zero) eqn:L; cbn.
  - split; reflexivity.
  - split; [|congruence].
    revert L. unfold B32.le, B32.lt, SFleb, SFltb.
    destruct (SFcompare _ _) as [[]|]; congruence.
Qed.












(** Above [2 ^ 21] the spacing of binary32 is at least 0.25, so 0.1f is
    less than half of it: the subtraction rounds back to the offset. *)

Lemma sub_tenth_absorbed (m : positive) (e : Z) :
  B32.valid (S754_finite false m e) = true ->
  B32.lt (S754_finite false 8388608 (-2)) (S754_finite false m e) = true ->
  B32.sub (S754_finite false m e) B32.tenth = S754_finite false m e.
Proof.
  intros V L.
  destruct (valid_finite_bounds false m e V) as (E & U & N).
  change (2 ^ 24) with 16777216 in U. change (2 ^ 23) with 8388608 in N.
  unfold B32.lt, SFltb in L.
  rewrite (compare_scaled (S754_finite false 8388608 (-2))
             (S754_finite false m e) eq_refl V eq_refl eq_refl) in L.
  unfold scaled, cond_Zopp in L. change (-2 + 149) with 147 in L.
  destruct (Z.compare_spec (8388608 * 2 ^ 147) (Zpos m * 2 ^ (e + 149)))
    as [_|H|_]; try discriminate L. clear L.
  assert (E2 : -2 <= e).
  { destruct (Z_le_gt_dec (-2) e) as [|C]; [assumption|exfalso].
    assert (T : 2 ^ (e + 149) <= 2 ^ 146) by (apply Z.pow_le_mono_r; lia).
    assert (C1 : 8388608 * 2 ^ 147 = 16777216 * 2 ^ 146)
      by (vm_compute; reflexivity).
    rewrite C1 in H. pow2_gt0 (e + 149).
    set (a := 2 ^ (e + 149)) in *. set (b := 2 ^ 146) in *. nia. }
  assert (M : 8388608 <= Zpos m) by lia.
  assert (M2 : e = -2 -> 8388608 < Zpos m).
  { intros ->. change (-2 + 149) with 147 in H.
    assert (0 < 2 ^ 147) by (vm_compute; reflexivity).
    set (a := 2 ^ 147) in *. nia. }
  clear H N.
  unfold B32.tenth.
  destruct (sub_scaled false m e false 13421773 (-27) ltac:(lia) ltac:(lia))
    as (D & S & X).
  rewrite S. clear S. replace (Z.min e (-27)) with (-27) in * by lia.
  unfold scaled, cond_Zopp in X. change (-27 + 149) with 122 in X.
  set (k := e + 27) in *.
  assert (W : 2 ^ (e + 149) = 2 ^ k * 2 ^ 122).
  { rewrite <- pow2_split by (subst k; lia). f_equal. subst k. lia. }
  rewrite W in X.
  assert (Pu : 0 < 2 ^ 122) by (vm_compute; reflexivity).
  assert (XD : D = Zpos m * 2 ^ k - 13421773).
  { set (u := 2 ^ 122) in *. set (a := 2 ^ k) in *. nia. }
  clear X W Pu.
  assert (K : 25 <= k) by (subst k; lia).
  assert (Ek : e = -27 + k) by (subst k; lia).
  clearbody k. subst e.
  assert (H1 : 2 ^ k = 2 * 2 ^ (k - 1)).
  { replace k with (Z.succ (k - 1)) at 1 by lia.
    rewrite Z.pow_succ_r by lia. reflexivity. }
  assert (H24 : 16777216 <= 2 ^ (k - 1)).
  { change 16777216 with (2 ^ 24). apply Z.pow_le_mono_r; lia. }
  assert (O : Z.odd D = true).
  { rewrite XD, Z.odd_sub, Z.odd_mul, Z.odd_pow by lia. simpl.
    rewrite andb_false_r. reflexivity. }
  set (a := 2 ^ k) in *. set (h := 2 ^ (k - 1)) in *.
  destruct D as [|D|D]; try lia. simpl binary_normalize.
  destruct (Z_lt_le_dec 8388608 (Zpos m)) as [G|G].
  - (* the shift is by [k] places *)
    destruct k as [|p|p] eqn:Kp; try lia.
    assert (Q : Zpos D / a = Zpos m - 1 /\ Zpos D mod a = a - 13421773).
    { apply Z.div_mod_unique with (b := a); try lia.
      - left. apply Z.mod_pos_bound. lia.
      - rewrite <- Z.div_mod by lia. lia. }
    destruct Q as [Q R].
    assert (Dg : digits D = 24 + Zpos p).
    { apply digits_unique.
      replace (24 + Zpos p - 1) with (23 + Zpos p) by lia.
      rewrite (pow2_split 23 (Zpos p)), (pow2_split 24 (Zpos p)) by lia.
      fold a. change (2 ^ 23) with 8388608. change (2 ^ 24) with 16777216.
      nia. }
    destruct (binary_round_up false D (-27) p ltac:(lia) Dg ltac:(lia) O)
      as [A _].
    { fold a. rewrite R. replace (Zpos p - 1) with (Zpos p - 1) by lia.
      fold h. lia. }
    apply A; [fold a; lia|lia|lia].
  - (* the mantissa is [2 ^ 23]: the shift is by [k - 1] places *)
    assert (Em : m = 8388608%positive) by lia. subst m.
    assert (K26 : 26 <= k) by lia.
    destruct (k - 1) as [|p|p] eqn:Kp; try lia.
    assert (H2 : h = 2 * 2 ^ (Zpos p - 1)).
    { subst h. replace (Zpos p) with (Z.succ (Zpos p - 1)) at 1 by lia.
      rewrite Z.pow_succ_r by lia. reflexivity. }
    assert (H25 : 16777216 <= 2 ^ (Zpos p - 1)).
    { change 16777216 with (2 ^ 24). apply Z.pow_le_mono_r; lia. }
    set (g := 2 ^ (Zpos p - 1)) in *.
    assert (Q : Zpos D / h = 16777215 /\ Zpos D mod h = h - 13421773).
    { apply Z.div_mod_unique with (b := h); try lia.
      - left. apply Z.mod_pos_bound. lia.
      - rewrite <- Z.div_mod by lia. lia. }
    destruct Q as [Q R].
    assert (Dg : digits D = 24 + Zpos p).
    { apply digits_unique.
      replace (24 + Zpos p - 1) with (23 + Zpos p) by lia.
      rewrite (pow2_split 23 (Zpos p)), (pow2_split 24 (Zpos p)) by lia.
      fold h. change (2 ^ 23) with 8388608. change (2 ^ 24) with 16777216.
      nia. }
    destruct (binary_round_up false D (-27) p ltac:(lia) Dg ltac:(lia) O)
      as [_ A].
    { fold h. rewrite R. fold g. lia. }
    fold h in A. rewrite Q in A.
    replace (-27 + k) with (-27 + Zpos p + 1) by lia.
    apply A; lia.
Qed.

Lemma fall_step_absorbed (s : Motion) :
  isFalling s = true -> B32.valid (jumpHeight s) = true ->
  B32.lt (S754_finite false 8388608 (-2)) (jumpHeight s) = true ->
  fall_step s = s /\ forall n, fall_n n s = s.
Proof.
  intros F V L.
  assert (E : fall_step s = s).
  { destruct s as [tx ij isf jh st dt lf]. cbn [isFalling jumpHeight] in *.
    subst isf. unfold fall_step. cbn [isFalling jumpHeight]. unfold jumpSpeed.
    destruct jh as [sg|sg| |sg m e]; try discriminate L.
    - destruct sg; [discriminate L|reflexivity].
    - destruct sg; [discriminate L|].
      rewrite (sub_tenth_absorbed m e V L). reflexivity. }
  split; [exact E|].
  induction n as [|n IH]; [reflexivity|].
  change (fall_n (S n) s) with (fall_step (fall_n n s)).
  now rewrite IH.
Qed.


(** ** The invariant of the loop *)

Lemma frame_step_invariant (sinf : float -> float) (f : Frame) (s : Motion) :
  sinf_nonneg_on_jump sinf ->
  loop_invariant s ->
  clock_reading (glfwGetTime f) ->
  B32.le (lastFrame s) (glfwGetTime f) = true ->
  loop_invariant (frame_step sinf f s).
Proof.
  intros HS (CL & F & H & J) CN LN.
  change (frame_step sinf f s)
    with (fall_step (jump_step sinf (glfwGetTime f) (before_jump f s))).
  set (now := glfwGetTime f) in *.
  set (s1 := before_jump f s).
  assert (I1 : lastFrame s1 = now /\ isFalling s1 = false /\
               jumpHeight s1 = jumpHeight s /\
               (isJumping s1 = true ->
                clock_reading (jumpStartTime s1) /\
                B32.le (jumpStartTime s1) now = true)).
  { subst s1. unfold before_jump, input_step. fold now.
    destruct (key_space f && negb _) eqn:K; cbn.
    - split; [reflexivity|]. split; [reflexivity|]. split; [reflexivity|].
      intros _. split; [exact CN|]. apply le_refl; apply CN.
    - split; [reflexivity|]. split; [exact F|]. split; [reflexivity|].
      intros J1. destruct (J J1) as [CS LS]. split; [exact CS|].
      destruct CS, CL, CN. now apply (le_trans _ (lastFrame s)). }
  destruct I1 as (L1 & F1 & H1 & J1).
  unfold jump_step.
  destruct (isJumping s1) eqn:E1.
  - destruct (J1 eq_refl) as [CS LS].
    destruct (B32.lt (jumpProgress now (jumpStartTime s1)) B32.one) eqn:P.
    + rewrite fall_step_idle by exact F1. unfold loop_invariant. cbn.
      rewrite L1, F1. repeat split; try apply CN; try apply CS; try exact LS.
      apply mul_half_nonneg. apply HS; try assumption.
      destruct CS, CN. now apply jumpProgress_nonneg.
    + unfold fall_step. cbn.
      change (B32.le (B32.sub B32.zero jumpSpeed) B32.zero) with true.
      unfold loop_invariant. cbn. rewrite L1.
      repeat split; try apply CN; discriminate.
  - rewrite fall_step_idle by exact F1. unfold loop_invariant.
    rewrite L1, F1, H1, E1. repeat split; try apply CN; try exact H;
      discriminate.
Qed.

Lemma reachable_invariant (sinf : float -> float) (s : Motion) :
  sinf_nonneg_on_jump sinf -> reachable sinf s -> loop_invariant s.
Proof.
  intros HS R. induction R as [|f s R IH CN LN].
  - unfold loop_invariant, clock_reading. cbn. repeat split; discriminate.
  - now apply frame_step_invariant.
Qed.

(** C4. Every state of the loop at the end of an iteration, from the
    initial state on, has a jump offset that is not negative and at most
    one of [isJumping] and [isFalling] set, and one more iteration keeps
    both; this holds for a clock that does not run backwards and a [sinf]
    that is not negative on the half period the jump passes it. *)
Theorem offset_nonneg_flags_exclusive (sinf : float -> float) (s : Motion) :
  sinf_nonneg_on_jump sinf ->
  reachable sinf s ->
  (B32.le B32.zero (jumpHeight s) = true /\
   B32.lt (jumpHeight s) B32.zero = false /\
   isJumping s && isFalling s = false) /\
  (forall f, clock_reading (glfwGetTime f) ->
     B32.le (lastFrame s) (glfwGetTime f) = true ->
     B32.le B32.zero (jumpHeight (frame_step sinf f s)) = true /\
     B32.lt (jumpHeight (frame_step sinf f s)) B32.zero = false /\
     isJumping (frame_step sinf f s) && isFalling (frame_step sinf f s)
     = false).
Proof.
  intros HS R.
  assert (G : forall t, loop_invariant t ->
                B32.le B32.zero (jumpHeight t) = true /\
                B32.lt (jumpHeight t) B32.zero = false /\
                isJumping t && isFalling t = false).
  { intros t (_ & F & H & _). split; [exact H|]. split.
    - now apply le_not_lt.
    - rewrite F. apply andb_false_r. }
  pose proof (reachable_invariant sinf s HS R) as I.
  split; [now apply G|].
  intros f CN LN. apply G. now apply frame_step_invariant.
Qed.

Lemma sinf_parabola_nonneg : sinf_nonneg_on_jump sinf_parabola.
Proof.
  intros start now _ _ _ _. unfold sinf_parabola.
  match goal with
  | |- context [if B32.le B32.zero ?v then _ else _] =>
      destruct (B32.le B32.zero v) eqn:E; [exact E|reflexivity]
  end.
Qed.

(** [offset_nonneg_flags_exclusive] after a frame at time 0.25 in which
    space starts a jump and a frame at time 0.5. *)
Lemma offset_nonneg_flags_exclusive_witness :
  let f1 := mkFrame B32.quarter false false false true false in
  let f2 := mkFrame B32.half false false true false false in
  let s := frame_step sinf_parabola f2 (frame_step sinf_parabola f1 initial) in
  reachable sinf_parabola s /\
  B32.le B32.zero (jumpHeight s) = true /\
  isJumping s && isFalling s = false.
Proof.
  intros f1 f2 s.
  assert (R : reachable sinf_parabola s).
  { subst s. apply reachable_frame; [apply reachable_frame| |].
    - apply reachable_initial.
    - split; reflexivity.
    - vm_compute; reflexivity.
    - split; reflexivity.
    - vm_compute; reflexivity. }
  split; [exact R|].
  destruct (offset_nonneg_flags_exclusive sinf_parabola s
              sinf_parabola_nonneg R) as [(A & _ & B) _].
  split; assumption.
Defined.

(** ** Exit paths of [main] *)

Lemma render_loop_closes (sinf : float -> float) (fs : list Frame) :
  Exists closes fs ->
  forall transform s drawn,
    exists out, render_loop sinf fs false transform s drawn = Some out.
Proof.
  induction 1 as [f fs C | f fs _ IH]; intros transform s drawn; simpl.
  - unfold closes in C. rewrite C. destruct fs; simpl; eauto.
  - destruct (key_escape f || close_event f).
    + destruct fs; simpl; eauto.
    + apply IH.
Qed.

Lemma render_loop_open (sinf : float -> float) (fs : list Frame) :
  Forall (fun f => ~ closes f) fs ->
  forall transform s drawn,
    render_loop sinf fs false transform s drawn = None.
Proof.
  induction 1 as [|f fs C _ IH]; intros transform s drawn; simpl.
  - reflexivity.
  - unfold closes in C. destruct (key_escape f || close_event f).
    + now contradict C.
    + apply IH.
Qed.

(** C8. [main] returns -1, with one message on standard error, when GLFW
    initialisation, window creation or GLEW initialisation fails, and
    returns 0 when the loop ends through the window's close flag. *)
Theorem main_exit_code (sinf : float -> float) (p : Platform)
    (fs : list Frame) :
  (glfwInit p = false ->
   exists o, main sinf p fs = Some o /\ exit_code o = -1 /\
             stderr o = ["Failed to initialize GLFW"%string]) /\
  (glfwInit p = true -> glfwCreateWindow p = false ->
   exists o, main sinf p fs = Some o /\ exit_code o = -1 /\
             stderr o = ["Failed to create GLFW window"%string]) /\
  (glfwInit p = true -> glfwCreateWindow p = true -> glewInit_ok p = false ->
   exists o, main sinf p fs = Some o /\ exit_code o = -1 /\
             stderr o = ["Failed to initialize GLEW"%string]) /\
  (glfwInit p = true -> glfwCreateWindow p = true -> glewInit_ok p = true ->
   Exists closes fs ->
   exists o, main sinf p fs = Some o /\ exit_code o = 0 /\
             glfwTerminate o = true).
Proof.
  unfold main. repeat split.
  - intros ->. simpl. eauto.
  - intros -> ->. simpl. eauto.
  - intros -> -> ->. simpl. eauto.
  - intros -> -> -> C. simpl.
    destruct (render_loop_closes sinf fs C (transform0 p) initial [])
      as [out ->].
    eauto.
Qed.

(** [main_exit_code] on a platform where everything starts and the user
    presses escape in the second frame, and on one where GLEW fails. *)
Lemma main_exit_code_witness :
  let ok := mkPlatform true true true None None None (repeat B32.zero 16) in
  let bad := mkPlatform true true false None None None (repeat B32.zero 16) in
  let fs := [mkFrame B32.zero false false true false false;
             mkFrame B32.tenth true false false false false] in
  Exists closes fs /\
  (exists o, main sinf_parabola ok fs = Some o /\ exit_code o = 0 /\
             glfwTerminate o = true) /\
  (exists o, main sinf_parabola bad fs = Some o /\ exit_code o = -1 /\
             stderr o = ["Failed to initialize GLEW"%string]).
Proof.
  intros ok bad fs.
  assert (C : Exists closes fs).
  { apply Exists_cons_tl, Exists_cons_hd. reflexivity. }
  split; [exact C|]. split.
  - exact (proj2 (proj2 (proj2 (main_exit_code sinf_parabola ok fs)))
             eq_refl eq_refl eq_refl C).
  - exact (proj1 (proj2 (proj2 (main_exit_code sinf_parabola bad fs)))
             eq_refl eq_refl eq_refl).
Defined.

(** * Further properties of the program *)

(** ** Matrices *)

(** X1. On an array of at least 16 slots [createTranslationMatrix] writes
    the first 16 slots only, the result does not depend on what they held,
    and a second call leaves no trace of the first. *)
Theorem createTranslationMatrix_overwrites (x y x' y' : float)
    (matrix : list float) :
  (16 <= length matrix)%nat ->
  identityMatrix matrix = identity16 ++ drop 16 matrix /\
  createTranslationMatrix x y matrix =
    <[7%nat := y]> (<[3%nat := x]> identity16) ++ drop 16 matrix /\
  length (createTranslationMatrix x y matrix) = length matrix /\
  createTranslationMatrix x y (createTranslationMatrix x' y' matrix) =
    createTranslationMatrix x y matrix.
Proof.
  intros L.
  do 16 (destruct matrix as [|? matrix]; [simpl in L; lia|]).
  repeat split; reflexivity.
Qed.

(** [createTranslationMatrix_overwrites] on an array of 18 slots: the last
    two keep their values. *)
Lemma createTranslationMatrix_overwrites_witness :
  let m := repeat B32.half 18 in
  createTranslationMatrix B32.one B32.tenth m =
    <[7%nat := B32.tenth]> (<[3%nat := B32.one]> identity16)
    ++ [B32.half; B32.half].
Proof.
  intros m.
  assert (L : (16 <= length m)%nat) by (simpl; lia).
  exact (proj1 (proj2 (createTranslationMatrix_overwrites
                         B32.one B32.tenth B32.zero B32.zero m L))).
Defined.

(** ** The directional classifier *)

Lemma checkCollisionDirection_eq x1 y1 width1 height1 x2 y2 width2 height2 :
  checkCollisionDirection x1 y1 width1 height1 x2 y2 width2 height2 =
  if strictly_overlap x1 y1 width1 height1 x2 y2 width2 height2 then
    if B32.lt x1 x2 then 1
    else if B32.gt (B32.add x1 width1) (B32.add x2 width2) then 2
    else if B32.lt y1 y2 then 3
    else if B32.gt (B32.add y1 height1) (B32.add y2 height2) then 4
    else 0
  else 0.
Proof.
  unfold checkCollisionDirection, strictly_overlap.
  destruct (B32.gt (B32.add x1 width1) x2); simpl; [|reflexivity].
  destruct (B32.lt x1 (B32.add x2 width2)); simpl; [|reflexivity].
  destruct (B32.gt (B32.add y1 height1) y2); simpl; [|reflexivity].
  destruct (B32.lt y1 (B32.add y2 height2)); simpl; [|reflexivity].
  destruct (B32.lt x1 x2); simpl; [reflexivity|].
  destruct (B32.gt (B32.add x1 width1) (B32.add x2 width2)); simpl;
    [reflexivity|].
  destruct (B32.lt y1 y2); simpl; [reflexivity|].
  destruct (B32.gt (B32.add y1 height1) (B32.add y2 height2)); reflexivity.
Qed.

(** X2. [checkCollisionDirection] answers a code from 0 to 4, and the code
    is decided by the first test that holds, in the order left, right, top,
    bottom: inside a strict overlap it is 1 when [x1 < x2], else 2 when the
    right edge of the first box is beyond that of the second, else 3 when
    [y1 < y2], else 4 when the top edge of the first box is beyond that of
    the second, else 0; without a strict overlap it is 0. *)
Theorem checkCollisionDirection_priority
    x1 y1 width1 height1 x2 y2 width2 height2 :
  let d := checkCollisionDirection x1 y1 width1 height1 x2 y2 width2 height2 in
  let inside := strictly_overlap x1 y1 width1 height1 x2 y2 width2 height2 in
  0 <= d <= 4 /\
  (d = 1 <-> inside = true /\ B32.lt x1 x2 = true) /\
  (d = 2 <-> inside = true /\ B32.lt x1 x2 = false /\
             B32.gt (B32.add x1 width1) (B32.add x2 width2) = true) /\
  (d = 3 <-> inside = true /\ B32.lt x1 x2 = false /\
             B32.gt (B32.add x1 width1) (B32.add x2 width2) = false /\
             B32.lt y1 y2 = true) /\
  (d = 4 <-> inside = true /\ B32.lt x1 x2 = false /\
             B32.gt (B32.add x1 width1) (B32.add x2 width2) = false /\
             B32.lt y1 y2 = false /\
             B32.gt (B32.add y1 height1) (B32.add y2 height2) = true).
Proof.
  intros d inside. subst d inside. rewrite checkCollisionDirection_eq.
  destruct (strictly_overlap _ _ _ _ _ _ _ _);
    [|repeat split; intros; try lia; intuition discriminate].
  destruct (B32.lt x1 x2);
    [repeat split; intros; try lia; intuition discriminate|].
  destruct (B32.gt (B32.add x1 width1) (B32.add x2 width2));
    [repeat split; intros; try lia; intuition discriminate|].
  destruct (B32.lt y1 y2);
    [repeat split; intros; try lia; intuition discriminate|].
  destruct (B32.gt (B32.add y1 height1) (B32.add y2 height2));
    repeat split; intros; try lia; intuition discriminate.
Qed.

(** X3. A box that lies inside the other one, edges included, gets the
    code 0 from [checkCollisionDirection] although [checkCollision] is
    true: the code 0 does not mean that the boxes are apart. *)
Theorem checkCollisionDirection_inside
    x1 y1 width1 height1 x2 y2 width2 height2 :
  strictly_overlap x1 y1 width1 height1 x2 y2 width2 height2 = true ->
  B32.lt x1 x2 = false ->
  B32.gt (B32.add x1 width1) (B32.add x2 width2) = false ->
  B32.lt y1 y2 = false ->
  B32.gt (B32.add y1 height1) (B32.add y2 height2) = false ->
  checkCollisionDirection x1 y1 width1 height1 x2 y2 width2 height2 = 0 /\
  checkCollision x1 y1 width1 height1 x2 y2 width2 height2 = true.
Proof.
  intros S A B C D. split.
  - rewrite checkCollisionDirection_eq, S, A, B, C, D. reflexivity.
  - revert S. unfold strictly_overlap, checkCollision.
    rewrite !andb_true_iff, !gt_lt. intros [[[P Q] R] T].
    rewrite (lt_irrefl_pair _ _ P), (lt_irrefl_pair _ _ Q),
      (lt_irrefl_pair _ _ R), (lt_irrefl_pair _ _ T).
    reflexivity.
Qed.

(** [checkCollisionDirection_inside] at the box (0.25, 0.25, 0.25, 0.25)
    inside the unit box at the origin. *)
Lemma checkCollisionDirection_inside_witness :
  checkCollisionDirection B32.quarter B32.quarter B32.quarter B32.quarter
                          B32.zero B32.zero B32.one B32.one = 0 /\
  checkCollision B32.quarter B32.quarter B32.quarter B32.quarter
                 B32.zero B32.zero B32.one B32.one = true.
Proof.
  apply checkCollisionDirection_inside; vm_compute; reflexivity.
Defined.

(** X4. Two boxes never hit each other from the same side: when
    [checkCollisionDirection] gives a nonzero code for a pair of boxes, it
    gives another code for the swapped pair. *)
Theorem checkCollisionDirection_swap
    x1 y1 width1 height1 x2 y2 width2 height2 :
  checkCollisionDirection x1 y1 width1 height1 x2 y2 width2 height2 <> 0 ->
  checkCollisionDirection x2 y2 width2 height2 x1 y1 width1 height1 <>
  checkCollisionDirection x1 y1 width1 height1 x2 y2 width2 height2.
Proof.
  rewrite !checkCollisionDirection_eq, !gt_lt.
  destruct (strictly_overlap x1 _ _ _ _ _ _ _); [|congruence].
  destruct (strictly_overlap x2 _ _ _ _ _ _ _).
  2:{ intros H E. apply H. symmetry. exact E. }
  destruct (B32.lt x1 x2) eqn:A.
  { rewrite (lt_irrefl_pair _ _ A).
    repeat match goal with |- context [if ?b then _ else _] => destruct b end;
      intros _; discriminate. }
  destruct (B32.lt (B32.add x2 width2) (B32.add x1 width1)) eqn:B.
  { rewrite (lt_irrefl_pair _ _ B).
    repeat match goal with |- context [if ?b then _ else _] => destruct b end;
      intros _; discriminate. }
  destruct (B32.lt y1 y2) eqn:C.
  { rewrite (lt_irrefl_pair _ _ C).
    repeat match goal with |- context [if ?b then _ else _] => destruct b end;
      intros _; discriminate. }
  destruct (B32.lt (B32.add y2 height2) (B32.add y1 height1)) eqn:D.
  { rewrite (lt_irrefl_pair _ _ D).
    repeat match goal with |- context [if ?b then _ else _] => destruct b end;
      intros _; discriminate. }
  congruence.
Qed.

(** [checkCollisionDirection_swap] at two unit boxes half a unit apart: 1
    one way, 2 the other way. *)
Lemma checkCollisionDirection_swap_witness :
  checkCollisionDirection B32.zero B32.zero B32.one B32.one
                          B32.half B32.zero B32.one B32.one = 1 /\
  checkCollisionDirection B32.half B32.zero B32.one B32.one
                          B32.zero B32.zero B32.one B32.one <> 1.
Proof.
  assert (E : checkCollisionDirection B32.zero B32.zero B32.one B32.one
                B32.half B32.zero B32.one B32.one = 1)
    by (vm_compute; reflexivity).
  split; [exact E|].
  pose proof (checkCollisionDirection_swap B32.zero B32.zero B32.one B32.one
                B32.half B32.zero B32.one B32.one) as H.
  rewrite E in H. apply H. discriminate.
Defined.

(** ** Independence of the two motions *)

Lemma jump_state_before_jump (f : Frame) (s : Motion) :
  jump_state (before_jump f s) =
  jump_state (input_step (glfwGetTime f) (key_space f) s) /\
  translationX (before_jump f s) =
  translationX (move_step (key_left f) (key_right f) s).
Proof.
  unfold before_jump, input_step, jump_state.
  destruct (key_space f); simpl; [|split; reflexivity].
  destruct (isJumping s); split; reflexivity.
Qed.

Lemma jump_fall_translationX (sinf : float -> float) (now : float)
    (s : Motion) :
  translationX (fall_step (jump_step sinf now s)) = translationX s.
Proof.
  unfold fall_step, jump_step.
  destruct (isJumping s); [destruct (B32.lt _ _)|];
    cbn [isFalling jumpHeight]; destruct (isFalling s);
    try destruct (B32.le _ _); reflexivity.
Qed.

Lemma jump_fall_jump_state (sinf : float -> float) (now : float)
    (s s' : Motion) :
  jump_state s = jump_state s' ->
  jump_state (fall_step (jump_step sinf now s)) =
  jump_state (fall_step (jump_step sinf now s')).
Proof.
  destruct s as [x j f h t d l], s' as [x' j' f' h' t' d' l'].
  unfold jump_state. simpl. intros E. injection E as -> -> -> ->.
  unfold fall_step, jump_step.
  cbn [isJumping isFalling jumpHeight jumpStartTime].
  destruct j', f'; cbn [isJumping isFalling jumpHeight jumpStartTime];
    repeat match goal with
           | |- context [B32.lt ?a ?b] =>
               destruct (B32.lt a b);
               cbn [isJumping isFalling jumpHeight jumpStartTime]
           | |- context [B32.le ?a ?b] =>
               destruct (B32.le a b);
               cbn [isJumping isFalling jumpHeight jumpStartTime]
           end; reflexivity.
Qed.

(** X5. The horizontal and the vertical motion do not influence each
    other, and [deltaTime] and [lastFrame] influence neither: after an
    iteration [translationX] depends only on its old value and the left
    and right keys, and the jump state (both flags, the offset and the
    start time) depends only on the old jump state, the clock and the
    space key. *)
Theorem frame_step_independent (sinf : float -> float) (f f' : Frame)
    (s s' : Motion) :
  (translationX s = translationX s' ->
   key_left f = key_left f' -> key_right f = key_right f' ->
   translationX (frame_step sinf f s) = translationX (frame_step sinf f' s'))
  /\
  (jump_state s = jump_state s' ->
   glfwGetTime f = glfwGetTime f' -> key_space f = key_space f' ->
   jump_state (frame_step sinf f s) = jump_state (frame_step sinf f' s')).
Proof.
  change (frame_step sinf f s)
    with (fall_step (jump_step sinf (glfwGetTime f) (before_jump f s))).
  change (frame_step sinf f' s')
    with (fall_step (jump_step sinf (glfwGetTime f') (before_jump f' s'))).
  split.
  - intros X L R. rewrite !jump_fall_translationX.
    rewrite (proj2 (jump_state_before_jump f s)),
      (proj2 (jump_state_before_jump f' s')).
    unfold move_step. simpl. rewrite X, L, R. reflexivity.
  - intros J T K. rewrite <- T. apply jump_fall_jump_state.
    rewrite (proj1 (jump_state_before_jump f s)),
      (proj1 (jump_state_before_jump f' s')).
    rewrite <- T, <- K. revert J.
    destruct s as [x j g h t d l], s' as [x' j' g' h' t' d' l'].
    unfold jump_state, input_step.
    cbn [isJumping isFalling jumpHeight jumpStartTime].
    intros E. injection E as -> -> -> ->.
    destruct (key_space f), j'; reflexivity.
Qed.

(** [frame_step_independent] on two states that differ in [translationX],
    [deltaTime] and [lastFrame], and two frames that differ in the left
    key: the jump states after the iteration agree. *)
Lemma frame_step_independent_witness :
  let s' := mkMotion B32.half false false B32.zero B32.zero B32.one B32.one in
  let f := mkFrame B32.one false false false true false in
  let f' := mkFrame B32.one false true false true false in
  jump_state (frame_step sinf_parabola f initial) =
  jump_state (frame_step sinf_parabola f' s').
Proof.
  intros s' f f'.
  exact (proj2 (frame_step_independent sinf_parabola f f' initial s')
           eq_refl eq_refl eq_refl).
Defined.

(** X6. A triangle on the ground stays there as long as space is not
    pressed: over any run of frames without the space key, whatever the
    clock and the other keys do, the jump state does not change. *)
Theorem grounded_without_space (sinf : float -> float) (fs : list Frame)
    (s : Motion) :
  isJumping s = false -> isFalling s = false ->
  Forall (fun f => key_space f = false) fs ->
  jump_state (run sinf fs s) = jump_state s.
Proof.
  intros J F H. revert s J F.
  induction H as [|f fs K _ IH]; intros s J F; [reflexivity|].
  change (run sinf (f :: fs) s) with (run sinf fs (frame_step sinf f s)).
  assert (E : jump_state (frame_step sinf f s) = jump_state s).
  { unfold frame_step, input_step. rewrite K. simpl.
    unfold jump_step. simpl. rewrite J. unfold fall_step. simpl.
    rewrite F. unfold jump_state. simpl. rewrite J, F. reflexivity. }
  unfold jump_state in E. injection E as A B C D.
  rewrite IH by congruence.
  unfold jump_state. congruence.
Qed.

(** [grounded_without_space] on two frames in which the triangle only
    moves sideways. *)
Lemma grounded_without_space_witness :
  let fs := [mkFrame B32.quarter false true false false false;
             mkFrame B32.half false false true false false] in
  jump_state (run sinf_parabola fs initial) = jump_state initial.
Proof.
  intros fs. apply grounded_without_space; [reflexivity|reflexivity|].
  repeat constructor.
Defined.

(** ** Outcomes of [main] *)

Lemma closes_dec (f : Frame) : {closes f} + {~ closes f}.
Proof.
  unfold closes. destruct (key_escape f || close_event f);
    [left; reflexivity|right; discriminate].
Qed.

Lemma closes_or_open (fs : list Frame) :
  Exists closes fs \/ Forall (fun f => ~ closes f) fs.
Proof.
  induction fs as [|f fs [E|A]].
  - right. constructor.
  - left. now apply Exists_cons_tl.
  - destruct (closes_dec f) as [C|C].
    + left. now apply Exists_cons_hd.
    + right. now constructor.
Qed.

Lemma render_loop_through_close (sinf : float -> float) (fs : list Frame) :
  Exists closes fs ->
  forall transform s drawn,
    render_loop sinf fs false transform s drawn =
    Some (drawn ++ replay sinf transform (through_close fs) s).
Proof.
  induction fs as [|f fs IH]; intros E transform s drawn.
  - inversion E.
  - simpl. destruct (key_escape f || close_event f) eqn:C.
    + destruct fs; simpl; reflexivity.
    + rewrite IH.
      * rewrite <- app_assoc. reflexivity.
      * inversion E as [? ? H|? ? H]; subst; [|exact H].
        unfold closes in H. congruence.
Qed.

Lemma through_close_app (fs rest : list Frame) :
  Exists closes fs ->
  through_close (through_close fs ++ rest) = through_close fs /\
  Exists closes (through_close fs ++ rest).
Proof.
  induction fs as [|f fs IH]; intros E; [inversion E|].
  simpl. destruct (key_escape f || close_event f) eqn:C; simpl; rewrite ?C.
  - split; [reflexivity|]. apply Exists_cons_hd. exact C.
  - assert (E' : Exists closes fs).
    { inversion E as [? ? H|? ? H]; subst; [|exact H].
      unfold closes in H. congruence. }
    destruct (IH E') as [A B]. rewrite A. split; [reflexivity|].
    now apply Exists_cons_tl.
Qed.

(** X7. Whenever [main] returns, the exit code is 0 or -1; it is 0 exactly
    when GLFW, the window and GLEW all started, and then some frame set the
    close flag; [glfwTerminate] has been called unless [glfwInit] itself
    failed; a failed start-up draws nothing and writes one line.  [main]
    does not return exactly when the start-up succeeds and no frame sets
    the close flag. *)
Theorem main_outcomes (sinf : float -> float) (p : Platform)
    (fs : list Frame) :
  (forall o, main sinf p fs = Some o ->
     (exit_code o = 0 \/ exit_code o = -1) /\
     (exit_code o = 0 <-> starts p = true) /\
     (exit_code o = 0 -> Exists closes fs) /\
     glfwTerminate o = glfwInit p /\
     (exit_code o = -1 ->
      frames_drawn o = [] /\ length (stderr o) = 1%nat)) /\
  (main sinf p fs = None <->
   starts p = true /\ Forall (fun f => ~ closes f) fs).
Proof.
  unfold main, starts.
  destruct (glfwInit p); simpl;
    [|split; [intros o [= <-]; simpl; intuition (discriminate || lia)
             |split; [discriminate|intros [? _]; discriminate]]].
  destruct (glfwCreateWindow p); simpl;
    [|split; [intros o [= <-]; simpl; intuition (discriminate || lia)
             |split; [discriminate|intros [? _]; discriminate]]].
  destruct (glewInit_ok p); simpl;
    [|split; [intros o [= <-]; simpl; intuition (discriminate || lia)
             |split; [discriminate|intros [? _]; discriminate]]].
  destruct (closes_or_open fs) as [E|A].
  - destruct (render_loop_closes sinf fs E (transform0 p) initial [])
      as [out ->].
    split.
    + intros o [= <-]. simpl. intuition (discriminate || lia).
    + split; [discriminate|]. intros [_ A].
      apply Exists_exists in E. destruct E as (f & I & C).
      rewrite Forall_forall in A. now destruct (A f I).
  - rewrite (render_loop_open sinf fs A). split; [discriminate|].
    split; intros; [split; [reflexivity|exact A]|reflexivity].
Qed.

(** [main_outcomes] on a run closed by the escape key, which returns 0. *)
Lemma main_outcomes_witness :
  let p := mkPlatform true true true None None None (repeat B32.zero 16) in
  let fs := [mkFrame B32.tenth true false false false false] in
  exists o, main sinf_parabola p fs = Some o /\
            exit_code o = 0 /\ glfwTerminate o = true.
Proof.
  intros p fs.
  destruct (main sinf_parabola p fs) as [o|] eqn:M;
    [|vm_compute in M; discriminate M].
  exists o. split; [reflexivity|].
  destruct (proj1 (main_outcomes sinf_parabola p fs) o M)
    as (_ & Z & _ & T & _).
  split; [apply Z; reflexivity|exact T].
Defined.

(** X8. With a successful start-up, the loop runs its body on every frame
    up to and including the first one that sets the close flag, and on no
    later one: the frames drawn are those of that prefix, and whatever
    follows it does not change the outcome. *)
Theorem main_through_close (sinf : float -> float) (p : Platform)
    (fs : list Frame) :
  starts p = true -> Exists closes fs ->
  exists o,
    main sinf p fs = Some o /\
    frames_drawn o = replay sinf (transform0 p) (through_close fs) initial /\
    length (frames_drawn o) = length (through_close fs) /\
    forall rest, main sinf p (through_close fs ++ rest) = Some o.
Proof.
  unfold starts. rewrite !andb_true_iff. intros [[I W] G] E.
  unfold main. rewrite I, W, G. simpl.
  rewrite (render_loop_through_close sinf fs E). simpl.
  eexists. split; [reflexivity|]. simpl. split; [reflexivity|]. split.
  - generalize initial. generalize (through_close fs).
    induction l as [|f l IH]; intros s; simpl; [reflexivity|].
    now rewrite IH.
  - intros rest. destruct (through_close_app fs rest E) as [A B].
    rewrite (render_loop_through_close sinf _ B), A. reflexivity.
Qed.

(** [main_through_close] on three frames of which the second closes the
    window: two frames are drawn. *)
Lemma main_through_close_witness :
  let p := mkPlatform true true true None None None (repeat B32.zero 16) in
  let fs := [mkFrame B32.tenth false false true false false;
             mkFrame B32.quarter false false false false true;
             mkFrame B32.half false true false true false] in
  exists o, main sinf_parabola p fs = Some o /\
            length (frames_drawn o) = 2%nat.
Proof.
  intros p fs.
  assert (E : Exists closes fs).
  { apply Exists_cons_tl, Exists_cons_hd. reflexivity. }
  destruct (main_through_close sinf_parabola p fs eq_refl E)
    as (o & M & _ & L & _).
  exists o. split; [exact M|exact L].
Defined.

(** X9. A shader that fails to compile or a program that fails to link
    does not stop [main]: with a successful start-up, [main] on a platform
    with such failures returns exactly when it returns on the same platform
    without them, with the same exit code and the same frames drawn; each
    failure leaves its header and its log on standard error, in the order
    vertex shader, fragment shader, link.  In particular [main] returns 0
    as soon as some frame sets the close flag. *)
Theorem shader_failures_not_fatal (sinf : float -> float) (p : Platform)
    (fs : list Frame) :
  starts p = true ->
  let clean :=
    mkPlatform (glfwInit p) (glfwCreateWindow p) (glewInit_ok p)
               None None None (transform0 p) in
  let lines :=
    diagnostic "ERROR::SHADER::COMPILATION_FAILED" (vertex_log p)
    ++ diagnostic "ERROR::SHADER::COMPILATION_FAILED" (fragment_log p)
    ++ diagnostic "ERROR::SHADER::PROGRAM::LINKING_FAILED" (link_log p) in
  main sinf p fs =
    option_map
      (fun o => mkOutcome lines (glfwTerminate o) (frames_drawn o)
                          (exit_code o))
      (main sinf clean fs) /\
  (Exists closes fs ->
   exists o, main sinf p fs = Some o /\ exit_code o = 0 /\
             stderr o = lines /\
             frames_drawn o =
               replay sinf (transform0 p) (through_close fs) initial) /\
  (main sinf p fs = None <-> Forall (fun f => ~ closes f) fs).
Proof.
  intros H clean lines. unfold starts in H.
  apply andb_true_iff in H. destruct H as [H G].
  apply andb_true_iff in H. destruct H as [I W].
  assert (L : createShaderProgram p [] = lines).
  { subst lines. unfold createShaderProgram, compileShader, diagnostic.
    destruct (vertex_log p), (fragment_log p), (link_log p); reflexivity. }
  assert (M : main sinf p fs =
              option_map
                (fun drawn => mkOutcome lines true drawn 0)
                (render_loop sinf fs false (transform0 p) initial [])).
  { unfold main. rewrite I, W, G, L. simpl.
    destruct (render_loop _ _ _ _ _ _); reflexivity. }
  split; [|split].
  - rewrite M. subst clean. unfold main. simpl. rewrite I, W, G. simpl.
    destruct (render_loop _ _ _ _ _ _); reflexivity.
  - intros E. rewrite M, (render_loop_through_close sinf fs E). simpl.
    eexists. split; [reflexivity|]. repeat split.
  - rewrite M. destruct (closes_or_open fs) as [E|A].
    + rewrite (render_loop_through_close sinf fs E). simpl.
      split; [discriminate|]. intros A.
      apply Exists_exists in E. destruct E as (f & H & C).
      rewrite Forall_forall in A. now destruct (A f H).
    + rewrite (render_loop_open sinf fs A). simpl. split; intros; [exact A|].
      reflexivity.
Qed.

(** [shader_failures_not_fatal] on a platform whose fragment shader fails
    to compile, with escape pressed in the first frame: [main] returns 0
    and standard error holds the two lines of the failure. *)
Lemma shader_failures_not_fatal_witness :
  let p := mkPlatform true true true None (Some "0:1: syntax error"%string)
             None (repeat B32.zero 16) in
  let fs := [mkFrame B32.tenth true false false false false] in
  exists o, main sinf_parabola p fs = Some o /\ exit_code o = 0 /\
            stderr o = ["ERROR::SHADER::COMPILATION_FAILED"%string;
                        "0:1: syntax error"%string].
Proof.
  intros p fs.
  assert (E : Exists closes fs) by (apply Exists_cons_hd; reflexivity).
  destruct (proj1 (proj2 (shader_failures_not_fatal sinf_parabola p fs
                            eq_refl)) E) as (o & M & Z & S & _).
  exists o. split; [exact M|]. split; [exact Z|exact S].
Defined.

(** ** More facts on rounding

    The sum of two finite values rounds the exact sum; rounding stays
    within one unit in the last place of the exact value and never crosses
    a value of the grid it rounds to. *)

Lemma add_scaled sx mx ex sy my ey :
  -149 <= ex -> -149 <= ey ->
  exists D,
    B32.add (S754_finite sx mx ex) (S754_finite sy my ey)
      = binary_normalize 24 128 D (Z.min ex ey) false /\
    D * 2 ^ (Z.min ex ey + 149)
      = scaled (S754_finite sx mx ex) + scaled (S754_finite sy my ey).
Proof.
  intros Ex Ey. eexists. split; [reflexivity|].
  destruct (shl_align_spec mx ex (Z.min ex ey)) as [_ A].
  destruct (shl_align_spec my ey (Z.min ex ey)) as [_ B].
  rewrite A, B. clear A B.
  replace (Z.min ex (Z.min ex ey)) with (Z.min ex ey) by lia.
  replace (Z.min ey (Z.min ex ey)) with (Z.min ex ey) by lia.
  unfold scaled.
  rewrite Z.mul_add_distr_r, !cond_Zopp_mul, <- !Z.mul_assoc.
  rewrite <- !pow2_split by lia.
  replace (ex - Z.min ex ey + (Z.min ex ey + 149)) with (ex + 149) by lia.
  replace (ey - Z.min ex ey + (Z.min ex ey + 149)) with (ey + 149) by lia.
  reflexivity.
Qed.

Lemma binary_round_near (s : bool) (D : positive) (ez t : Z) :
  -149 <= ez <= 104 -> Zpos D * 2 ^ (ez + 149) < 2 ^ t -> t <= 276 ->
  exists m' e',
    binary_round 24 128 s D ez = S754_finite s m' e' /\
    valid_binary 24 128 (S754_finite s m' e') = true /\
    -149 <= e' /\
    Zpos D * 2 ^ (ez + 149) - 2 ^ (t - 24) <= Zpos m' * 2 ^ (e' + 149)
      <= Zpos D * 2 ^ (ez + 149) + 2 ^ (t - 24).
Proof.
  intros E H T.
  pose proof (digits_from_bound D (ez + 149) t ltac:(lia) H) as G.
  pose proof (Z.pow_nonneg 2 (t - 24) ltac:(lia)) as P0.
  destruct (Z_le_gt_dec (digits D) 24) as [S|S].
  - destruct (binary_round_exact s D ez E S) as (m' & e' & R & V & E' & X).
    exists m', e'. repeat split; try assumption; lia.
  - destruct (binary_round_inexact s D ez ltac:(lia) ltac:(lia) ltac:(lia))
      as (m' & e' & R & V & E' & XL & XU).
    exists m', e'. repeat split; try assumption.
    + assert (P : 0 < 2 ^ (digits D - 24)) by (apply pow2_pos; lia).
      pose proof (Z.mod_pos_bound (Zpos D) (2 ^ (digits D - 24)) P) as M.
      pose proof (Z.div_mod (Zpos D) (2 ^ (digits D - 24)) ltac:(lia)) as Q.
      replace (ez + (digits D - 24) + 149)
        with ((digits D - 24) + (ez + 149)) in XL by lia.
      rewrite (pow2_split (digits D - 24) (ez + 149)) in XL by lia.
      pow2_gt0 (ez + 149).
      assert (W : 2 ^ (digits D - 24 + (ez + 149)) <= 2 ^ (t - 24))
        by (apply Z.pow_le_mono_r; lia).
      rewrite (pow2_split (digits D - 24) (ez + 149)) in W by lia.
      nia.
    + destruct (binary_round_upper s D ez E ltac:(lia))
        as (m2 & e2 & R2 & _ & _ & U).
      rewrite R in R2. injection R2 as <- <-.
      assert (W : 2 ^ (digits D + ez + 125) <= 2 ^ (t - 24))
        by (apply Z.pow_le_mono_r; lia).
      lia.
Qed.

Lemma binary_normalize_near (D ez t : Z) :
  -149 <= ez <= 104 -> Z.abs D * 2 ^ (ez + 149) < 2 ^ t -> t <= 276 ->
  B32.valid (binary_normalize 24 128 D ez false) = true /\
  is_finite (binary_normalize 24 128 D ez false) = true /\
  D * 2 ^ (ez + 149) - 2 ^ (t - 24)
    <= scaled (binary_normalize 24 128 D ez false)
    <= D * 2 ^ (ez + 149) + 2 ^ (t - 24).
Proof.
  intros E H T.
  pose proof (Z.pow_nonneg 2 (t - 24) ltac:(lia)) as P0.
  destruct D as [|p|p]; simpl binary_normalize.
  - repeat split; simpl; lia.
  - destruct (binary_round_near false p ez t E H T)
      as (m' & e' & -> & V & E' & X).
    repeat split; try exact V; unfold scaled, cond_Zopp; lia.
  - destruct (binary_round_near true p ez t E H T)
      as (m' & e' & -> & V & E' & X).
    repeat split; try exact V; unfold scaled, cond_Zopp; lia.
Qed.

Lemma binary_round_grid (s : bool) (D : positive) (ez T : Z) :
  -149 <= ez <= 104 -> digits D + ez <= 127 ->
  (2 ^ (Z.max (digits D + ez - 24) ez + 149) | T) ->
  exists m' e',
    binary_round 24 128 s D ez = S754_finite s m' e' /\
    valid_binary 24 128 (S754_finite s m' e') = true /\
    -149 <= e' /\
    (T <= Zpos D * 2 ^ (ez + 149) -> T <= Zpos m' * 2 ^ (e' + 149)) /\
    (Zpos D * 2 ^ (ez + 149) < T -> Zpos m' * 2 ^ (e' + 149) <= T).
Proof.
  intros E O [K HK].
  destruct (Z_le_gt_dec (digits D) 24) as [S|S].
  - destruct (binary_round_exact s D ez E S) as (m' & e' & R & V & E' & X).
    exists m', e'. repeat split; try assumption; lia.
  - destruct (binary_round_inexact s D ez ltac:(lia) ltac:(lia) O)
      as (m' & e' & R & V & E' & XL & XU).
    exists m', e'. split; [exact R|]. split; [exact V|]. split; [exact E'|].
    replace (Z.max (digits D + ez - 24) ez + 149)
      with ((digits D - 24) + (ez + 149)) in HK by lia.
    replace (ez + (digits D - 24) + 149)
      with ((digits D - 24) + (ez + 149)) in XL, XU by lia.
    rewrite (pow2_split (digits D - 24) (ez + 149)) in * by lia.
    assert (P : 0 < 2 ^ (digits D - 24)) by (apply pow2_pos; lia).
    pow2_gt0 (ez + 149).
    set (n := 2 ^ (digits D - 24)) in *. set (Q := 2 ^ (ez + 149)) in *.
    set (q := Zpos D / n) in *. subst T.
    split; intros C.
    + assert (K <= q).
      { apply Z.div_le_lower_bound; [exact P|]. nia. }
      nia.
    + assert (q < K).
      { apply Z.div_lt_upper_bound; [exact P|]. nia. }
      nia.
Qed.

(** ** The start of a jump *)

Lemma sub_self (a : float) : is_finite a = true -> B32.sub a a = B32.zero.
Proof.
  destruct a as [[]| | |s m e]; try discriminate; intros _; try reflexivity.
  unfold B32.sub, SFsub. rewrite Z.sub_diag. reflexivity.
Qed.

Lemma sub_self_not_finite (a : float) :
  is_finite a = false -> B32.sub a a = S754_nan.
Proof. destruct a as [|[]| |]; try discriminate; reflexivity. Qed.

(** X10. In the iteration in which space starts a jump, the progress is
    [now - now]: with a finite reading of the clock it is exactly 0, so the
    iteration ends with the jump under way and the offset
    [sinf(0) * 0.5f]; with a reading that is infinite or a NaN it is a NaN,
    so the jump ends in the iteration that started it and the triangle is
    back on the ground. *)
Theorem jump_first_frame (sinf : float -> float) (f : Frame) (s : Motion) :
  key_space f = true -> isJumping s = false ->
  (is_finite (glfwGetTime f) = true ->
   jump_state (frame_step sinf f s) =
     (true, false, B32.mul (sinf B32.zero) B32.half, glfwGetTime f)) /\
  (is_finite (glfwGetTime f) = false ->
   jump_state (frame_step sinf f s) =
     (false, false, B32.zero, glfwGetTime f)).
Proof.
  intros K J. unfold frame_step, input_step. rewrite K. simpl. rewrite J.
  simpl. unfold jump_step. simpl. unfold jumpProgress. split; intros F.
  - rewrite (sub_self _ F).
    change (B32.lt (B32.div B32.zero jumpDuration) B32.one) with true.
    simpl. unfold fall_step. reflexivity.
  - rewrite (sub_self_not_finite _ F).
    change (B32.lt (B32.div S754_nan jumpDuration) B32.one) with false.
    simpl. unfold fall_step. simpl.
    change (B32.le (B32.sub B32.zero jumpSpeed) B32.zero) with true.
    reflexivity.
Qed.

(** [jump_first_frame] from the initial state, space pressed at time
    0.25. *)
Lemma jump_first_frame_witness :
  let f := mkFrame B32.quarter false false false true false in
  jump_state (frame_step sinf_parabola f initial) =
    (true, false, B32.mul (sinf_parabola B32.zero) B32.half, B32.quarter).
Proof.
  intros f.
  exact (proj1 (jump_first_frame sinf_parabola f initial eq_refl eq_refl)
           eq_refl).
Defined.

(** ** The left and right keys *)

Lemma lt_scaled (a b : float) :
  B32.valid a = true -> B32.valid b = true ->
  is_finite a = true -> is_finite b = true ->
  (B32.lt a b = true <-> scaled a < scaled b).
Proof.
  intros Va Vb Fa Fb. unfold B32.lt, SFltb.
  rewrite (compare_scaled a b Va Vb Fa Fb).
  destruct (Z.compare_spec (scaled a) (scaled b)); split; intros;
    try reflexivity; try discriminate; lia.
Qed.

Lemma abs_scaled (D Q : Z) : 0 < Q -> Z.abs D * Q = Z.abs (D * Q).
Proof. intros. rewrite Z.abs_mul, (Z.abs_eq Q) by lia. reflexivity. Qed.

Lemma add_hundredth_gt (x : float) :
  B32.valid x = true -> is_finite x = true ->
  - 2 ^ 150 <= scaled x <= 2 ^ 150 ->
  B32.lt x (B32.add x B32.hundredth) = true.
Proof.
  intros V F R.
  destruct x as [[]| | |s m e]; try discriminate F; try reflexivity.
  pose proof (valid_finite_bounds s m e V) as (E & _).
  destruct (add_scaled s m e false 10737418 (-30) ltac:(lia) ltac:(lia))
    as (D & A & X).
  fold B32.hundredth in A. rewrite A.
  set (ez := Z.min e (-30)) in *.
  set (sx := scaled (S754_finite s m e)) in *.
  unfold scaled at 1 in X. unfold cond_Zopp in X.
  change (-30 + 149) with 119 in X.
  assert (P127 : 2 ^ 127 = 256 * 2 ^ 119) by (vm_compute; reflexivity).
  assert (P150 : 2 ^ 150 = 2147483648 * 2 ^ 119) by (vm_compute; reflexivity).
  assert (P151 : 2 ^ 151 = 4294967296 * 2 ^ 119) by (vm_compute; reflexivity).
  assert (Pu : 0 < 2 ^ 119) by (vm_compute; reflexivity).
  pow2_gt0 (ez + 149).
  destruct (binary_normalize_near D ez 151 ltac:(lia)) as (V' & F' & L & _).
  { rewrite abs_scaled by lia. lia. }
  { lia. }
  change (151 - 24) with 127 in L.
  apply lt_scaled; try assumption. fold sx. lia.
Qed.

Lemma sub_hundredth_lt (x : float) :
  B32.valid x = true -> is_finite x = true ->
  - 2 ^ 150 <= scaled x <= 2 ^ 150 ->
  B32.lt (B32.sub x B32.hundredth) x = true.
Proof.
  intros V F R.
  destruct x as [[]| | |s m e]; try discriminate F; try reflexivity.
  pose proof (valid_finite_bounds s m e V) as (E & _).
  destruct (sub_scaled s m e false 10737418 (-30) ltac:(lia) ltac:(lia))
    as (D & A & X).
  fold B32.hundredth in A. rewrite A.
  set (ez := Z.min e (-30)) in *.
  set (sx := scaled (S754_finite s m e)) in *.
  unfold scaled at 1 in X. unfold cond_Zopp in X.
  change (-30 + 149) with 119 in X.
  assert (P127 : 2 ^ 127 = 256 * 2 ^ 119) by (vm_compute; reflexivity).
  assert (P150 : 2 ^ 150 = 2147483648 * 2 ^ 119) by (vm_compute; reflexivity).
  assert (P151 : 2 ^ 151 = 4294967296 * 2 ^ 119) by (vm_compute; reflexivity).
  assert (Pu : 0 < 2 ^ 119) by (vm_compute; reflexivity).
  pow2_gt0 (ez + 149).
  destruct (binary_normalize_near D ez 151 ltac:(lia)) as (V' & F' & _ & U).
  { rewrite abs_scaled by lia. lia. }
  { lia. }
  change (151 - 24) with 127 in U.
  apply lt_scaled; try assumption. fold sx. lia.
Qed.

(** X11. While [translationX] is a binary32 number between -2 and 2, the
    right key alone strictly increases it and the left key alone strictly
    decreases it; no other field of the state changes. *)
Theorem move_step_moves (s : Motion) :
  B32.valid (translationX s) = true ->
  B32.le (SFopp (B32.literal 2 1)) (translationX s) = true ->
  B32.le (translationX s) (B32.literal 2 1) = true ->
  B32.lt (translationX s) (translationX (move_step false true s)) = true /\
  B32.lt (translationX (move_step true false s)) (translationX s) = true /\
  jump_state (move_step false true s) = jump_state s /\
  jump_state (move_step true false s) = jump_state s.
Proof.
  intros V L U.
  assert (F : is_finite (translationX s) = true).
  { destruct (translationX s) as [|[]| |]; try reflexivity; discriminate. }
  apply le_scaled in L; try assumption; try reflexivity.
  apply le_scaled in U; try assumption; try reflexivity.
  change (scaled (SFopp (B32.literal 2 1))) with (- 2 ^ 150) in L.
  change (scaled (B32.literal 2 1)) with (2 ^ 150) in U.
  unfold move_step. cbn [translationX].
  split; [apply add_hundredth_gt; assumption || lia|].
  split; [apply sub_hundredth_lt; assumption || lia|].
  split; reflexivity.
Qed.

(** [move_step_moves] at the initial state, where [translationX] is -1. *)
Lemma move_step_moves_witness :
  B32.lt (translationX initial) (translationX (move_step false true initial))
  = true /\
  B32.lt (translationX (move_step true false initial)) (translationX initial)
  = true.
Proof.
  destruct (move_step_moves initial eq_refl eq_refl eq_refl) as (A & B & _).
  split; assumption.
Defined.

(** Beyond that range the keys can stop working: at 262144.0f, that is
    [2 ^ 18], adding 0.01f gives 262144.0f again. *)
Example right_key_absorbed :
  let x := S754_finite false 8388608 (-5) in
  B32.valid x = true /\ B32.add x B32.hundredth = x.
Proof. vm_compute. split; reflexivity. Qed.

(** ** The jump and the square *)

Lemma lt_false_scaled (a b : float) :
  B32.valid a = true -> B32.valid b = true ->
  is_finite a = true -> is_finite b = true ->
  scaled b <= scaled a -> B32.lt a b = false.
Proof.
  intros Va Vb Fa Fb H. destruct (B32.lt a b) eqn:L; [|reflexivity].
  apply lt_scaled in L; try assumption. lia.
Qed.

Lemma divide_pow2 (g t c : Z) : 0 <= g <= t -> (2 ^ g | c * 2 ^ t).
Proof.
  intros H. exists (c * 2 ^ (t - g)).
  rewrite <- Z.mul_assoc, <- pow2_split by lia. do 2 f_equal. lia.
Qed.

Lemma jump_box_meets_square (h : float) :
  B32.valid h = true ->
  B32.le B32.zero h = true -> B32.le h B32.half = true ->
  let y1 := B32.add (SFopp B32.three_quarters) h in
  B32.gt y1 (SFopp B32.quarter) = false /\
  B32.lt (B32.add y1 B32.half) (SFopp B32.three_quarters) = false.
Proof.
  intros V L U y1. subst y1.
  destruct h as [[]|[]| |[] m e]; try discriminate;
    try (split; reflexivity).
  pose proof (valid_finite_bounds false m e V) as (E & _).
  apply le_scaled in U; try assumption; try reflexivity.
  unfold scaled, cond_Zopp, B32.half in U.
  change (Z.pos 8388608 * 2 ^ (-24 + 149)) with (16777216 * 2 ^ 124) in U.
  destruct (add_scaled true 12582912 (-24) false m e ltac:(lia) ltac:(lia))
    as (D & A & X).
  change (S754_finite true 12582912 (-24)) with (SFopp B32.three_quarters)
    in A.
  rewrite A. clear A.
  unfold scaled, cond_Zopp in X.
  change (- (Z.pos 12582912 * 2 ^ (-24 + 149)))
    with (- (25165824 * 2 ^ 124)) in X.
  assert (P149 : 2 ^ 149 = 33554432 * 2 ^ 124) by (vm_compute; reflexivity).
  assert (P147 : 2 ^ 147 = 8388608 * 2 ^ 124) by (vm_compute; reflexivity).
  assert (P148 : 2 ^ 148 = 16777216 * 2 ^ 124) by (vm_compute; reflexivity).
  assert (Pu : 0 < 2 ^ 124) by (vm_compute; reflexivity).
  assert (Q0 : scaled (SFopp B32.quarter) = - (8388608 * 2 ^ 124))
    by reflexivity.
  assert (Q1 : scaled (SFopp B32.three_quarters) = - (25165824 * 2 ^ 124))
    by reflexivity.
  set (ez := Z.min (-24) e) in *.
  pow2_gt0 (ez + 149). pow2_gt0 (e + 149).
  destruct D as [|p|p]; try nia.
  simpl binary_normalize.
  assert (G : digits p + (ez + 149) <= 149)
    by (apply digits_from_bound; [lia|nia]).
  pose proof (digits_pos p).
  destruct (binary_round_grid true p ez (8388608 * 2 ^ 124))
    as (m1 & e1 & R & V1 & E1 & Lo & _); [lia|lia| |].
  { rewrite <- P147. replace (2 ^ 147) with (1 * 2 ^ 147) by lia.
    apply divide_pow2. lia. }
  destruct (binary_round_grid true p ez (25165824 * 2 ^ 124))
    as (m2 & e2 & R2 & _ & _ & _ & Hi); [lia|lia| |].
  { replace (25165824 * 2 ^ 124) with (3 * 2 ^ 147) by lia.
    apply divide_pow2. lia. }
  rewrite R in R2. injection R2 as <- <-. rewrite R.
  assert (B1 : 8388608 * 2 ^ 124 <= Zpos m1 * 2 ^ (e1 + 149)) by (apply Lo; nia).
  assert (B2 : Zpos m1 * 2 ^ (e1 + 149) <= 25165824 * 2 ^ 124)
    by (apply Hi; nia).
  clear Lo Hi.
  split.
  - rewrite gt_lt. apply lt_false_scaled; try reflexivity; try exact V1.
    rewrite Q0. unfold scaled, cond_Zopp. lia.
  - destruct (add_scaled true m1 e1 false 8388608 (-24) ltac:(lia) ltac:(lia))
      as (D2 & A2 & X2).
    fold B32.half in A2. rewrite A2. clear A2.
    unfold scaled, cond_Zopp in X2.
    change (Z.pos 8388608 * 2 ^ (-24 + 149)) with (16777216 * 2 ^ 124) in X2.
    set (ez2 := Z.min e1 (-24)) in *.
    pow2_gt0 (ez2 + 149).
    destruct (binary_normalize_near D2 ez2 148 ltac:(lia))
      as (V2 & F2 & L2 & _).
    { rewrite abs_scaled by lia. lia. }
    { lia. }
    change (2 ^ (148 - 24)) with (2 ^ 124) in L2.
    apply lt_false_scaled; try reflexivity; try assumption.
    rewrite Q1. lia.
Qed.

(** X12. The jump never lifts the triangle clear of the square: for every
    offset that is a binary32 number from 0 to 0.5, the amplitude of the
    jump, the collision box of the triangle meets that of the square on the
    vertical axis, so the collision that is drawn depends on
    [translationX] alone: it holds exactly when neither
    [translationX + 0.5f < -0.25f] nor [translationX > 0.25f]. *)
Theorem jump_never_clears_square (transform : list float) (s : Motion) :
  B32.valid (jumpHeight s) = true ->
  B32.le B32.zero (jumpHeight s) = true ->
  B32.le (jumpHeight s) B32.half = true ->
  isColliding (draw transform s) =
  negb (B32.lt (B32.add (translationX s) B32.half) (SFopp B32.quarter)
        || B32.gt (translationX s) B32.quarter).
Proof.
  intros V L U.
  destruct (jump_box_meets_square (jumpHeight s) V L U) as [A B].
  unfold draw. cbn [isColliding]. unfold checkCollision.
  change (B32.sub squareTranslationX B32.quarter) with (SFopp B32.quarter).
  change (B32.sub squareTranslationY B32.quarter)
    with (SFopp B32.three_quarters).
  change (B32.add (SFopp B32.quarter) B32.half) with B32.quarter.
  change (B32.add (SFopp B32.three_quarters) B32.half)
    with (SFopp B32.quarter).
  unfold translationY. rewrite A, B, !orb_false_r. reflexivity.
Qed.

(** [jump_never_clears_square] at the top of the jump, offset 0.5f, with
    the triangle above the square: the collision is drawn. *)
Lemma jump_never_clears_square_witness :
  let s := mkMotion B32.zero true false B32.half B32.zero B32.zero B32.zero in
  isColliding (draw (repeat B32.zero 16) s) = true.
Proof.
  intros s.
  rewrite (jump_never_clears_square (repeat B32.zero 16) s
             eq_refl eq_refl eq_refl).
  reflexivity.
Defined.

(** ** Edges of the collision tests *)

Lemma eq_not_lt_gt (a b : float) :
  B32.eq a b = true -> B32.lt a b = false /\ B32.gt a b = false.
Proof.
  unfold B32.eq, B32.lt, B32.gt, SFeqb, SFltb.
  destruct (SFcompare a b) as [[]|]; intros; split; congruence.
Qed.

(** X13. Boxes that only touch get the code 0: when an edge of one box
    equals the facing edge of the other, on either axis,
    [checkCollisionDirection] answers 0, whatever [checkCollision]
    answers. *)
Theorem checkCollisionDirection_touching
    x1 y1 width1 height1 x2 y2 width2 height2 :
  B32.eq (B32.add x1 width1) x2 = true \/
  B32.eq x1 (B32.add x2 width2) = true \/
  B32.eq (B32.add y1 height1) y2 = true \/
  B32.eq y1 (B32.add y2 height2) = true ->
  checkCollisionDirection x1 y1 width1 height1 x2 y2 width2 height2 = 0.
Proof.
  rewrite checkCollisionDirection_eq. unfold strictly_overlap.
  intros [E|[E|[E|E]]]; destruct (eq_not_lt_gt _ _ E) as [L G];
    rewrite ?L, ?G, ?andb_false_r; reflexivity.
Qed.

(** [checkCollisionDirection_touching] at two unit boxes that share the
    edge [x = 1]: the code is 0 and [checkCollision] is true. *)
Lemma checkCollisionDirection_touching_witness :
  checkCollisionDirection B32.zero B32.zero B32.one B32.one
                          B32.one B32.zero B32.one B32.one = 0 /\
  checkCollision B32.zero B32.zero B32.one B32.one
                 B32.one B32.zero B32.one B32.one = true.
Proof.
  split; [|reflexivity].
  apply checkCollisionDirection_touching. left. reflexivity.
Defined.

(** X14. A NaN never separates two boxes: when the horizontal position of
    the first box is a NaN, [checkCollision] is decided by the vertical
    axis alone, and when both positions are NaNs it is true; the
    directional classifier answers 0 in both cases. *)
Theorem checkCollision_nan x1 y1 width1 height1 x2 y2 width2 height2 :
  B32.is_nan x1 = true ->
  checkCollision x1 y1 width1 height1 x2 y2 width2 height2 =
    negb (B32.lt (B32.add y1 height1) y2 || B32.gt y1 (B32.add y2 height2))
  /\
  (B32.is_nan y1 = true ->
   checkCollision x1 y1 width1 height1 x2 y2 width2 height2 = true) /\
  checkCollisionDirection x1 y1 width1 height1 x2 y2 width2 height2 = 0.
Proof.
  intros N. destruct x1; try discriminate N.
  split; [reflexivity|]. split; [|reflexivity].
  intros M. destruct y1; try discriminate M. reflexivity.
Qed.

(** [checkCollision_nan] at a box whose position is (NaN, NaN), against
    the box (5, 5, 1, 1). *)
Lemma checkCollision_nan_witness :
  checkCollision S754_nan S754_nan B32.one B32.one
                 (B32.literal 5 1) (B32.literal 5 1) B32.one B32.one = true.
Proof.
  exact (proj1 (proj2 (checkCollision_nan S754_nan S754_nan B32.one B32.one
                         (B32.literal 5 1) (B32.literal 5 1) B32.one B32.one
                         eq_refl)) eq_refl).
Defined.

(** ** What the loop keeps and what it draws *)

Lemma frame_step_on_curve (sinf : float -> float) (f : Frame) (s : Motion) :
  offset_on_curve sinf s -> offset_on_curve sinf (frame_step sinf f s).
Proof.
  intros (F & G & _).
  change (frame_step sinf f s)
    with (fall_step (jump_step sinf (glfwGetTime f) (before_jump f s))).
  set (now := glfwGetTime f).
  set (s1 := before_jump f s).
  assert (I : lastFrame s1 = now /\ isFalling s1 = false /\
              (isJumping s1 = false -> jumpHeight s1 = B32.zero)).
  { subst s1. unfold before_jump, input_step. fold now.
    destruct (key_space f && negb _) eqn:K; cbn.
    - repeat split. discriminate.
    - repeat split; try exact F. intros J. apply G.
      destruct (key_space f), (isJumping s); simpl in *; congruence. }
  destruct I as (L1 & F1 & G1).
  unfold jump_step. destruct (isJumping s1) eqn:J1.
  - destruct (B32.lt (jumpProgress now (jumpStartTime s1)) B32.one) eqn:P.
    + rewrite fall_step_idle by exact F1. unfold offset_on_curve. cbn.
      rewrite L1, ?J1. repeat split; try exact F1; try exact P; discriminate.
    + unfold fall_step. cbn.
      change (B32.le (B32.sub B32.zero jumpSpeed) B32.zero) with true.
      unfold offset_on_curve. cbn. repeat split; discriminate.
  - rewrite fall_step_idle by exact F1. unfold offset_on_curve.
    rewrite J1. repeat split; try exact F1; try (now apply G1); discriminate.
Qed.

(** X15. At the end of every iteration the offset is up to date: with the
    triangle on the ground it is exactly 0, and during a jump it is
    [sinf (progress * M_PI) * 0.5f] at the progress of the last reading of
    the clock, a progress below 1; this holds for every run from the
    initial state, every [sinf] and every clock. *)
Theorem offset_follows_clock (sinf : float -> float) (fs : list Frame) :
  let s := run sinf fs initial in
  (isJumping s = false -> jumpHeight s = B32.zero) /\
  (isJumping s = true ->
   B32.lt (jumpProgress (lastFrame s) (jumpStartTime s)) B32.one = true /\
   jumpHeight s =
     B32.mul (sinf (sin_arg (jumpProgress (lastFrame s) (jumpStartTime s))))
             B32.half).
Proof.
  assert (G : forall s, offset_on_curve sinf s ->
                offset_on_curve sinf (run sinf fs s)).
  { induction fs as [|f fs IH]; intros s H; [exact H|].
    change (run sinf (f :: fs) s) with (run sinf fs (frame_step sinf f s)).
    apply IH. now apply frame_step_on_curve. }
  assert (I : offset_on_curve sinf initial).
  { unfold offset_on_curve. cbn. repeat split; discriminate. }
  destruct (G initial I) as (_ & A & B). split; assumption.
Qed.

(** [offset_follows_clock] after a jump started at time 0.25 and a frame at
    time 0.75: the offset is the curve at progress 0.5. *)
Lemma offset_follows_clock_witness :
  let fs := [mkFrame B32.quarter false false false true false;
             mkFrame B32.three_quarters false false false false false] in
  jumpHeight (run sinf_parabola fs initial) =
  B32.mul (sinf_parabola (sin_arg B32.half)) B32.half.
Proof.
  intros fs.
  destruct (offset_follows_clock sinf_parabola fs) as [_ H].
  destruct (H eq_refl) as [_ E]. rewrite E. reflexivity.
Defined.

(** X16. Each iteration hands the shader, for the triangle, the translation
    by [(translationX, translationY + jumpHeight)] and, for the square,
    the translation by (0, -0.5): the second matrix is built in the array of
    the first and keeps nothing of it, so the square never moves.  The
    colour is (1, 0, 0, 1) when the collision holds and (0.4, 0.8, 0.6, 1)
    otherwise. *)
Theorem draw_uniforms (transform : list float) (s : Motion) :
  length transform = 16%nat ->
  triangleTransform (draw transform s) =
    <[7%nat := B32.add translationY (jumpHeight s)]>
      (<[3%nat := translationX s]> identity16) /\
  squareTransform (draw transform s) =
    <[7%nat := SFopp B32.half]> identity16 /\
  triangleColor (draw transform s) =
    (if isColliding (draw transform s)
     then [B32.one; B32.zero; B32.zero; B32.one]
     else [B32.two_fifths; B32.four_fifths; B32.three_fifths; B32.one]).
Proof.
  intros L.
  do 16 (destruct transform as [|? transform]; [discriminate L|]).
  destruct transform; [|discriminate L].
  repeat split; reflexivity.
Qed.

(** [draw_uniforms] at the initial state: the triangle is at (-1, -0.75)
    and green. *)
Lemma draw_uniforms_witness :
  let d := draw (repeat B32.one 16) initial in
  triangleTransform d !! 3%nat = Some (SFopp B32.one) /\
  triangleTransform d !! 7%nat = Some (SFopp B32.three_quarters) /\
  squareTransform d !! 3%nat = Some B32.zero /\
  squareTransform d !! 7%nat = Some (SFopp B32.half) /\
  isColliding d = false.
Proof.
  intros d.
  destruct (draw_uniforms (repeat B32.one 16) initial eq_refl)
    as (A & B & _).
  subst d. rewrite A, B. repeat split.
Defined.
